(** * flat-cache: the persistent cache engine (FastLRU and FlatCache)

    A shallow embedding of the classes [LRUNode], [FastLRU] and [FlatCache]
    of the flat-cache package, with the collaborators they call (the file
    system, the memory store and the snapshot codec), and the properties of
    the engine proved over it. *)

From Stdlib Require Import ZArith Lia.
From Stdlib Require Import Ascii String DecimalString.
From stdpp Require Import gmap strings list fin_maps.

Local Open Scope Z_scope.

(** ** Exceptions and notifications *)

(** The errors the engine can meet: a file-system call that throws, a
    snapshot text the decoder rejects, and the explicit [Error] object
    [loadFileStream] builds for a missing file. *)
Inductive Err : Type :=
  | ErrIO (syscall : string) (path : string)
  | ErrDecode
  | ErrMissing (path : string).

(** [result A]: a call either returns or throws. *)
Inductive result (A : Type) : Type :=
  | Ok (a : A)
  | Throw (e : Err).
Arguments Ok {A} a.
Arguments Throw {A} e.

(** [FlatCacheEvents], each with the payload [emit] passes to observers. *)
Inductive FlatCacheEvents : Type :=
  | SAVE
  | LOAD
  | DELETE (key : string)
  | CLEAR
  | DESTROY
  | ERROR (e : Err)
  | EXPIRED.

(** ** The file system ([node:fs], [node:path])

    Paths are kept as written: [path.resolve] normalises a path against the
    working directory, which is the identity on the normalised absolute
    paths the model works with.  A file system holds the regular files with
    their text, the directories, and the paths on which a mutating call
    throws (no permission, read-only medium, ...). *)
Module Fs.

Record t : Type := mk {
  files : gmap string string;
  dirs : gset string;
  denied : gset string
}.

Definition resolve (p : string) : string := p.

Definition existsSync (p : string) (fs : t) : bool :=
  bool_decide (is_Some (files fs !! p)) || bool_decide (p ∈ dirs fs).

Definition readFileSync (p : string) (fs : t) : result string :=
  match files fs !! p with
  | Some text => Ok text
  | None => Throw (ErrIO "read" p)
  end.

Definition writeFileSync (p : string) (data : string) (fs : t) : result t :=
  if bool_decide (p ∈ denied fs) || bool_decide (p ∈ dirs fs)
  then Throw (ErrIO "write" p)
  else Ok (mk (<[p := data]> (files fs)) (dirs fs) (denied fs)).

(** [mkdirSync(p, {recursive: true})]. *)
Definition mkdirSync (p : string) (fs : t) : result t :=
  if bool_decide (p ∈ denied fs) || bool_decide (is_Some (files fs !! p))
  then Throw (ErrIO "mkdir" p)
  else Ok (mk (files fs) ({[p]} ∪ dirs fs) (denied fs)).

(** [q] is [p] itself or lies below the directory [p]. *)
Definition within (p q : string) : bool :=
  bool_decide (q = p) || String.prefix (p +:+ "/") q.

(** [rmSync(p, {recursive: true, force: true})]: [p] and all below it go;
    a missing [p] is no error. *)
Definition rmSync_rf (p : string) (fs : t) : result t :=
  if bool_decide (p ∈ denied fs)
  then Throw (ErrIO "rm" p)
  else Ok (mk (filter (λ kv, within p kv.1 = false) (files fs))
              (filter (λ q, within p q = false) (dirs fs))
              (denied fs)).

(** [rmSync(p)]: a regular file only. *)
Definition rmSync (p : string) (fs : t) : result t :=
  if bool_decide (p ∈ denied fs) then Throw (ErrIO "rm" p)
  else match files fs !! p with
       | Some _ => Ok (mk (delete p (files fs)) (dirs fs) (denied fs))
       | None => Throw (ErrIO "rm" p)
       end.

(** The read stream of [createReadStream]: the text arrives in chunks of at
    most [chunk] characters. *)
Fixpoint chunks_fuel (fuel : nat) (chunk : nat) (s : string) : list string :=
  match fuel with
  | O => []
  | S fuel' =>
    if bool_decide (String.length s = 0%nat) then []
    else String.substring 0 chunk s
         :: chunks_fuel fuel' chunk
              (String.substring chunk (String.length s - chunk) s)
  end.

Definition chunks (chunk : nat) (s : string) : list string :=
  chunks_fuel (String.length s) (Nat.max 1 chunk) s.

End Fs.

(** ** The recency tracker: [LRUNode] and [FastLRU]

    Nodes are objects on the heap that refer to each other; a reference is a
    handle into [nodes], and [fresh] is the next handle [new LRUNode] hands
    out.  [cache] is the [Map<string, LRUNode>]. *)
Module FastLRU.

Record LRUNode : Type := mkNode {
  key : string;
  prev : option nat;
  next : option nat
}.

Record t : Type := mk {
  capacity : nat;
  cache : gmap string nat;
  nodes : gmap nat LRUNode;
  head : option nat;
  tail : option nat;
  fresh : nat
}.

Definition new (capacity : nat) : t := mk capacity ∅ ∅ None None 0%nat.

Definition with_cache (f : gmap string nat → gmap string nat) (l : t) : t :=
  mk (capacity l) (f (cache l)) (nodes l) (head l) (tail l) (fresh l).
Definition with_nodes (f : gmap nat LRUNode → gmap nat LRUNode) (l : t) : t :=
  mk (capacity l) (cache l) (f (nodes l)) (head l) (tail l) (fresh l).
Definition with_head (h : option nat) (l : t) : t :=
  mk (capacity l) (cache l) (nodes l) h (tail l) (fresh l).
Definition with_tail (h : option nat) (l : t) : t :=
  mk (capacity l) (cache l) (nodes l) (head l) h (fresh l).

(** [n.next = v] and [n.prev = v] for the node behind handle [h]. *)
Definition set_next (h : nat) (v : option nat) : gmap nat LRUNode → gmap nat LRUNode :=
  alter (λ n, mkNode (key n) (prev n) v) h.
Definition set_prev (h : nat) (v : option nat) : gmap nat LRUNode → gmap nat LRUNode :=
  alter (λ n, mkNode (key n) v (next n)) h.

(** The fields of the node behind [h], read when the statement runs. *)
Definition prev_of (h : nat) (l : t) : option nat := nodes l !! h ≫= prev.
Definition next_of (h : nat) (l : t) : option nat := nodes l !! h ≫= next.

Definition removeNode (node : nat) (l : t) : t :=
  let l1 :=
    match prev_of node l with
    | Some p => with_nodes (set_next p (next_of node l)) l
    | None => with_head (next_of node l) l
    end in
  match next_of node l1 with
  | Some n => with_nodes (set_prev n (prev_of node l1)) l1
  | None => with_tail (prev_of node l1) l1
  end.

Definition addToFront (node : nat) (l : t) : t :=
  let l1 := with_nodes (set_next node (head l)) l in
  let l2 := with_nodes (set_prev node None) l1 in
  let l3 :=
    match head l2 with
    | Some h => with_nodes (set_prev h (Some node)) l2
    | None => l2
    end in
  let l4 := with_head (Some node) l3 in
  match tail l4 with
  | Some _ => l4
  | None => with_tail (Some node) l4
  end.

Definition moveToFront (node : nat) (l : t) : t :=
  if bool_decide (Some node = head l) then l
  else addToFront node (removeNode node l).

Definition removeLRU (l : t) : t :=
  match tail l with
  | None => l
  | Some tl =>
    match nodes l !! tl with
    | Some n => removeNode tl (with_cache (base.delete (key n)) l)
    | None => l
    end
  end.

Definition touch (k : string) (l : t) : t :=
  match cache l !! k with
  | Some node => moveToFront node l
  | None =>
    let node := fresh l in
    let l1 := mk (capacity l) (<[k := node]> (cache l))
                 (<[node := mkNode k None None]> (nodes l))
                 (head l) (tail l) (S node) in
    let l2 := addToFront node l1 in
    if bool_decide (capacity l2 < size (cache l2))%nat then removeLRU l2 else l2
  end.

Definition has (k : string) (l : t) : bool :=
  bool_decide (is_Some (cache l !! k)).

Definition delete (k : string) (l : t) : t :=
  match cache l !! k with
  | None => l
  | Some node => with_cache (base.delete k) (removeNode node l)
  end.

Definition clear (l : t) : t :=
  mk (capacity l) ∅ (nodes l) None None (fresh l).

(** The keys from [head] along [next], most recently used first. *)
Fixpoint walk (fuel : nat) (hp : gmap nat LRUNode) (h : option nat) : list string :=
  match fuel, h with
  | S fuel', Some x =>
    match hp !! x with
    | Some n => key n :: walk fuel' hp (next n)
    | None => []
    end
  | _, _ => []
  end.

Definition order (l : t) : list string :=
  walk (size (cache l)) (nodes l) (head l).

End FastLRU.


(** ** The memory store: [CacheableMemory] *)
Module CacheableMemory.
Section Store.
Context {Value : Type}.

(** One entry as [items] yields it and as the snapshot holds it:
    [{key, value, expires}]. *)
Record CacheableStoreItem : Type := mkItem {
  key : string;
  value : Value;
  expires : option Z
}.

(** Modelled from the spec: the class [CacheableMemory] of the cacheable
    package, which is not among the sources.  The spec gives it as a black
    box with get, set, delete, clear, the items and the keys, entries that
    carry an optional expiry, and a time-to-live fixed at construction.  An
    entry whose expiry is past is not observable; the store never drops a
    live entry on its own account (its capacity bound is left unset, and the
    expiration sweep only removes entries that are not observable anyway).
    [store] maps a key to its value and expiry. *)
Record t : Type := mk {
  ttl : option Z;
  store : gmap string (Value * option Z)
}.

(** The third argument of [set]: nothing, a time-to-live in milliseconds,
    or [{expire}] with an absolute time. *)
Inductive SetOptions : Type :=
  | NoTtl
  | Ttl (ms : Z)
  | Expire (at_time : option Z).

(** Modelled from the spec: a store is constructed with its time-to-live
    and no entries. *)
Definition new (ttl : option Z) : t := mk ttl ∅.

(** Modelled from the spec: an entry has expired when its expiry is past. *)
Definition hasExpired (now : Z) (e : option Z) : bool :=
  match e with
  | Some e => e <? now
  | None => false
  end.

(** Modelled from the spec: the expiry [set] gives an entry: the time asked
    for, or else the store's own time-to-live from now on, if it has one. *)
Definition expiry (now : Z) (o : SetOptions) (m : t) : option Z :=
  match o with
  | Ttl ms => Some (now + ms)
  | Expire (Some e) => Some e
  | Expire None | NoTtl => (λ ms, now + ms) <$> ttl m
  end.

(** Modelled from the spec: [set(key, value, ttl?)]. *)
Definition set (k : string) (v : Value) (o : SetOptions) (now : Z) (m : t) : t :=
  mk (ttl m) (<[k := (v, expiry now o m)]> (store m)).

(** Modelled from the spec: [get(key)], absent for a key that is not
    stored or whose entry has expired; an expired entry is dropped. *)
Definition get (k : string) (now : Z) (m : t) : option Value * t :=
  match store m !! k with
  | None => (None, m)
  | Some (v, e) =>
    if hasExpired now e then (None, mk (ttl m) (base.delete k (store m)))
    else (Some v, m)
  end.

(** Modelled from the spec: [delete(key)] and [clear()]. *)
Definition delete (k : string) (m : t) : t :=
  mk (ttl m) (base.delete k (store m)).

Definition clear (m : t) : t := mk (ttl m) ∅.

(** Modelled from the spec: [items] and [keys], the live entries. *)
Definition live (now : Z) (kve : string * (Value * option Z)) : bool :=
  negb (hasExpired now kve.2.2).

Definition items (now : Z) (m : t) : list CacheableStoreItem :=
  (λ kve, mkItem kve.1 kve.2.1 kve.2.2)
    <$> filter (λ kve, live now kve = true) (map_to_list (store m)).

Definition keys (now : Z) (m : t) : list string :=
  key <$> items now m.

End Store.
Arguments CacheableStoreItem Value : clear implicits.
Arguments t Value : clear implicits.
End CacheableMemory.

Abbreviation Item := CacheableMemory.CacheableStoreItem.

(** ** The snapshot codec

    [parse] and [stringify] of the flatted package, the codec a cache uses
    unless its options bring their own.  [parse] answers [None] where the
    JavaScript function throws. *)
Class Flatted (Value : Type) : Type := {
  parse : string → option (list (Item Value));
  stringify : list (Item Value) → string
}.

(** A codec for integer values, one [key=value@expires;] record per entry,
    to run the engine on concrete inputs. *)
Module LineCodec.

Fixpoint fields (sep : ascii) (s : string) : list string :=
  match s with
  | EmptyString => [EmptyString]
  | String c s' =>
    if Ascii.eqb c sep then EmptyString :: fields sep s'
    else match fields sep s' with
         | f :: fs => String c f :: fs
         | [] => [String c EmptyString]
         end
  end.

Definition of_dec (s : string) : option Z :=
  Z.of_int <$> NilZero.int_of_string s.

Definition to_dec (z : Z) : string := NilZero.string_of_int (Z.to_int z).

Definition encode_item (item : Item Z) : string :=
  CacheableMemory.key item +:+ "=" +:+ to_dec (CacheableMemory.value item)
  +:+ "@" +:+ from_option to_dec "" (CacheableMemory.expires item) +:+ ";".

Definition decode_item (s : string) : option (Item Z) :=
  match fields "=" s with
  | [k; rest] =>
    match fields "@" rest with
    | [v; e] =>
      v' ← of_dec v;
      if bool_decide (e = "") then Some (CacheableMemory.mkItem k v' None)
      else e' ← of_dec e; Some (CacheableMemory.mkItem k v' (Some e'))
    | _ => None
    end
  | _ => None
  end.

Definition encode (items : list (Item Z)) : string :=
  foldr (λ item acc, encode_item item +:+ acc) "" items.

Definition decode (s : string) : option (list (Item Z)) :=
  match reverse (fields ";" s) with
  | "" :: records => mapM decode_item (reverse records)
  | _ => None
  end.

#[global] Instance flatted : Flatted Z := {| parse := decode; stringify := encode |}.

End LineCodec.

(** ** The cache facade: [FlatCache] *)

(** [FlatCacheOptions]; [None] is a field left out.  Of the options handed
    on to the memory store only [ttl] has a counterpart in the model. *)
Module FlatCacheOptions.
Section Options.
Context {Value : Type}.

Record t : Type := mk {
  ttl : option Z;
  persistInterval : option Z;
  cacheDir : option string;
  cacheId : option string;
  deserialize : option (string → option (list (Item Value)));
  serialize : option (list (Item Value) → string);
  inMemoryLruSize : option nat;
  batchWriteSize : option nat;
  batchWriteDelay : option Z
}.

End Options.
Arguments t Value : clear implicits.
End FlatCacheOptions.

Module FlatCache.
Section Engine.
Context {Value : Type} `{!Flatted Value}.

(** The fields of the class.  A timer is the time it is due
    ([_batchWriteTimer]) or its period ([_persistTimer]); [emitted] is the
    sequence of notifications handed to [emit] so far. *)
Record t : Type := mk {
  _cache : CacheableMemory.t Value;
  _cacheDir : string;
  _cacheId : string;
  _persistInterval : Z;
  _persistTimer : option Z;
  _changesSinceLastSave : bool;
  _parse : string → option (list (Item Value));
  _stringify : list (Item Value) → string;
  _lruCache : FastLRU.t;
  _serializationCache : option string;
  _serializationCacheValid : bool;
  _pendingWrites : gmap string Value;
  _batchWriteTimer : option Z;
  _batchWriteSize : nat;
  _batchWriteDelay : Z;
  emitted : list FlatCacheEvents
}.

Definition set_cache (m : CacheableMemory.t Value) (c : t) : t :=
  mk m (_cacheDir c) (_cacheId c) (_persistInterval c) (_persistTimer c)
     (_changesSinceLastSave c) (_parse c) (_stringify c) (_lruCache c)
     (_serializationCache c) (_serializationCacheValid c) (_pendingWrites c)
     (_batchWriteTimer c) (_batchWriteSize c) (_batchWriteDelay c) (emitted c).
Definition set_cacheDir (value : string) (c : t) : t :=
  mk (_cache c) value (_cacheId c) (_persistInterval c) (_persistTimer c)
     (_changesSinceLastSave c) (_parse c) (_stringify c) (_lruCache c)
     (_serializationCache c) (_serializationCacheValid c) (_pendingWrites c)
     (_batchWriteTimer c) (_batchWriteSize c) (_batchWriteDelay c) (emitted c).
Definition set_cacheId (value : string) (c : t) : t :=
  mk (_cache c) (_cacheDir c) value (_persistInterval c) (_persistTimer c)
     (_changesSinceLastSave c) (_parse c) (_stringify c) (_lruCache c)
     (_serializationCache c) (_serializationCacheValid c) (_pendingWrites c)
     (_batchWriteTimer c) (_batchWriteSize c) (_batchWriteDelay c) (emitted c).
Definition set_persistInterval (value : Z) (c : t) : t :=
  mk (_cache c) (_cacheDir c) (_cacheId c) value (_persistTimer c)
     (_changesSinceLastSave c) (_parse c) (_stringify c) (_lruCache c)
     (_serializationCache c) (_serializationCacheValid c) (_pendingWrites c)
     (_batchWriteTimer c) (_batchWriteSize c) (_batchWriteDelay c) (emitted c).
Definition set_persistTimer (x : option Z) (c : t) : t :=
  mk (_cache c) (_cacheDir c) (_cacheId c) (_persistInterval c) x
     (_changesSinceLastSave c) (_parse c) (_stringify c) (_lruCache c)
     (_serializationCache c) (_serializationCacheValid c) (_pendingWrites c)
     (_batchWriteTimer c) (_batchWriteSize c) (_batchWriteDelay c) (emitted c).
Definition set_changesSinceLastSave (b : bool) (c : t) : t :=
  mk (_cache c) (_cacheDir c) (_cacheId c) (_persistInterval c) (_persistTimer c)
     b (_parse c) (_stringify c) (_lruCache c)
     (_serializationCache c) (_serializationCacheValid c) (_pendingWrites c)
     (_batchWriteTimer c) (_batchWriteSize c) (_batchWriteDelay c) (emitted c).
Definition set_lruCache (l : FastLRU.t) (c : t) : t :=
  mk (_cache c) (_cacheDir c) (_cacheId c) (_persistInterval c) (_persistTimer c)
     (_changesSinceLastSave c) (_parse c) (_stringify c) l
     (_serializationCache c) (_serializationCacheValid c) (_pendingWrites c)
     (_batchWriteTimer c) (_batchWriteSize c) (_batchWriteDelay c) (emitted c).
Definition set_serializationCache (x : option string) (c : t) : t :=
  mk (_cache c) (_cacheDir c) (_cacheId c) (_persistInterval c) (_persistTimer c)
     (_changesSinceLastSave c) (_parse c) (_stringify c) (_lruCache c)
     x (_serializationCacheValid c) (_pendingWrites c)
     (_batchWriteTimer c) (_batchWriteSize c) (_batchWriteDelay c) (emitted c).
Definition set_serializationCacheValid (b : bool) (c : t) : t :=
  mk (_cache c) (_cacheDir c) (_cacheId c) (_persistInterval c) (_persistTimer c)
     (_changesSinceLastSave c) (_parse c) (_stringify c) (_lruCache c)
     (_serializationCache c) b (_pendingWrites c)
     (_batchWriteTimer c) (_batchWriteSize c) (_batchWriteDelay c) (emitted c).
Definition set_pendingWrites (w : gmap string Value) (c : t) : t :=
  mk (_cache c) (_cacheDir c) (_cacheId c) (_persistInterval c) (_persistTimer c)
     (_changesSinceLastSave c) (_parse c) (_stringify c) (_lruCache c)
     (_serializationCache c) (_serializationCacheValid c) w
     (_batchWriteTimer c) (_batchWriteSize c) (_batchWriteDelay c) (emitted c).
Definition set_batchWriteTimer (x : option Z) (c : t) : t :=
  mk (_cache c) (_cacheDir c) (_cacheId c) (_persistInterval c) (_persistTimer c)
     (_changesSinceLastSave c) (_parse c) (_stringify c) (_lruCache c)
     (_serializationCache c) (_serializationCacheValid c) (_pendingWrites c)
     x (_batchWriteSize c) (_batchWriteDelay c) (emitted c).

(** [this.emit(event, ...)]: observers are handed the notification. *)
Definition emit (ev : FlatCacheEvents) (c : t) : t :=
  mk (_cache c) (_cacheDir c) (_cacheId c) (_persistInterval c) (_persistTimer c)
     (_changesSinceLastSave c) (_parse c) (_stringify c) (_lruCache c)
     (_serializationCache c) (_serializationCacheValid c) (_pendingWrites c)
     (_batchWriteTimer c) (_batchWriteSize c) (_batchWriteDelay c)
     (emitted c ++ [ev]).

(** A string in a condition: the empty string counts as false. *)
Definition truthy (s : string) : bool := negb (bool_decide (s = "")).

Definition startAutoPersist (c : t) : t :=
  if 0 <? _persistInterval c
  then set_persistTimer (Some (_persistInterval c)) (set_persistTimer None c)
  else c.

Definition stopAutoPersist (c : t) : t :=
  match _persistTimer c with
  | Some _ => set_persistTimer None c
  | None => c
  end.

(** [new FlatCache(options)]. *)
Definition new (options : option (FlatCacheOptions.t Value)) : t :=
  let c0 :=
    mk (CacheableMemory.new (options ≫= FlatCacheOptions.ttl))
       (match options ≫= FlatCacheOptions.cacheDir with
        | Some d => if truthy d then d else ".cache"
        | None => ".cache"
        end)
       (match options ≫= FlatCacheOptions.cacheId with
        | Some i => if truthy i then i else "cache1"
        | None => "cache1"
        end)
       (default 0 (options ≫= FlatCacheOptions.persistInterval))
       None
       false
       (default parse (options ≫= FlatCacheOptions.deserialize))
       (default stringify (options ≫= FlatCacheOptions.serialize))
       (FastLRU.new (default 1000%nat (options ≫= FlatCacheOptions.inMemoryLruSize)))
       None
       false
       ∅
       None
       (default 10%nat (options ≫= FlatCacheOptions.batchWriteSize))
       (default 100 (options ≫= FlatCacheOptions.batchWriteDelay))
       [] in
  if bool_decide (_persistInterval c0 = 0) then c0 else startAutoPersist c0.

Definition changesSinceLastSave (c : t) : bool := _changesSinceLastSave c.

Definition cacheFilePath (c : t) : string :=
  Fs.resolve (_cacheDir c +:+ "/" +:+ _cacheId c).

Definition cacheDirPath (c : t) : string := Fs.resolve (_cacheDir c).

Definition items (now : Z) (c : t) : list (Item Value) :=
  CacheableMemory.items now (_cache c).

Definition keys (now : Z) (c : t) : list string :=
  CacheableMemory.keys now (_cache c).

Definition all (now : Z) (c : t) : gmap string Value :=
  foldl (λ r item, <[CacheableMemory.key item := CacheableMemory.value item]> r)
        ∅ (CacheableMemory.items now (_cache c)).

(** The loop of [loadFile]: every decoded entry is set with its expiry. *)
Definition replay (now : Z) (entries : list (Item Value))
    (m : CacheableMemory.t Value) : CacheableMemory.t Value :=
  foldl (λ m item,
           CacheableMemory.set (CacheableMemory.key item)
             (CacheableMemory.value item)
             (CacheableMemory.Expire (CacheableMemory.expires item)) now m)
        m entries.

(** [loadFile]: the second component is the exception that leaves the
    method, if one does. *)
Definition loadFile (pathToFile : string) (now : Z) (c : t) (fs : Fs.t)
    : t * option Err :=
  if Fs.existsSync pathToFile fs then
    match Fs.readFileSync pathToFile fs with
    | Throw e => (c, Some e)
    | Ok data =>
      match _parse c data with
      | None => (c, Some ErrDecode)
      | Some entries =>
        (set_changesSinceLastSave true
           (set_cache (replay now entries (_cache c)) c), None)
      end
    end
  else (c, None).

Definition load (cacheId cacheDir : option string) (now : Z) (c : t) (fs : Fs.t) : t :=
  let filePath :=
    Fs.resolve (default (_cacheDir c) cacheDir +:+ "/" +:+ default (_cacheId c) cacheId) in
  match loadFile filePath now c fs with
  | (c', None) => emit LOAD c'
  | (c', Some e) => emit (ERROR e) c'
  end.

(** The calls [loadFileStream] makes to the callbacks it is given. *)
Inductive Callback : Type :=
  | onProgress (loaded total : nat)
  | onEnd
  | onError (e : Err).

Fixpoint progress (total loaded : nat) (chunks : list string) : list Callback :=
  match chunks with
  | [] => []
  | ch :: rest =>
    onProgress (loaded + String.length ch) total
    :: progress total (loaded + String.length ch)%nat rest
  end.

(** [loadFileStream]: the stream's events are taken in the order they are
    delivered; [withOnError] says whether an [onError] callback was given.
    The third component is an exception no handler catches. *)
Definition loadFileStream (pathToFile : string) (withOnError : bool)
    (chunk : nat) (now : Z) (c : t) (fs : Fs.t)
    : t * list Callback * option Err :=
  if Fs.existsSync pathToFile fs then
    match Fs.readFileSync pathToFile fs with
    | Throw e =>
      (emit (ERROR e) c, if withOnError then [onError e] else [], None)
    | Ok data =>
      let calls := progress (String.length data) 0 (Fs.chunks chunk data) in
      match _parse c data with
      | None => (c, calls, Some ErrDecode)
      | Some entries =>
        (set_changesSinceLastSave true
           (set_cache (replay now entries (_cache c)) c),
         calls ++ [onEnd], None)
      end
    end
  else
    let error := ErrMissing pathToFile in
    (emit (ERROR error) c, if withOnError then [onError error] else [], None).

Definition flushPendingWrites (c : t) : t :=
  let c1 :=
    match _batchWriteTimer c with
    | Some _ => set_batchWriteTimer None c
    | None => c
    end in
  if bool_decide (0 < size (_pendingWrites c1))%nat
  then set_pendingWrites ∅ c1
  else c1.

Definition scheduleBatchWrite (now : Z) (c : t) : t :=
  match _batchWriteTimer c with
  | Some _ => c
  | None =>
    if bool_decide (_batchWriteSize c ≤ size (_pendingWrites c))%nat
    then flushPendingWrites c
    else set_batchWriteTimer (Some (now + _batchWriteDelay c)) c
  end.

Definition set (k : string) (v : Value) (ttl : option Z) (now : Z) (c : t) : t :=
  let o := from_option CacheableMemory.Ttl CacheableMemory.NoTtl ttl in
  let c1 := set_cache (CacheableMemory.set k v o now (_cache c)) c in
  let c2 := set_lruCache (FastLRU.touch k (_lruCache c1)) c1 in
  let c3 := set_changesSinceLastSave true c2 in
  let c4 := set_serializationCacheValid false c3 in
  let c5 := set_pendingWrites (<[k := v]> (_pendingWrites c4)) c4 in
  scheduleBatchWrite now c5.

Definition setKey (k : string) (v : Value) (ttl : option Z) (now : Z) (c : t) : t :=
  set k v ttl now c.

Definition delete (k : string) (c : t) : t :=
  let c1 := set_cache (CacheableMemory.delete k (_cache c)) c in
  let c2 := set_lruCache (FastLRU.delete k (_lruCache c1)) c1 in
  let c3 := set_changesSinceLastSave true c2 in
  let c4 := set_serializationCacheValid false c3 in
  let c5 := set_pendingWrites (base.delete k (_pendingWrites c4)) c4 in
  emit (DELETE k) c5.

Definition removeKey (k : string) (c : t) : t := delete k c.

Definition get (k : string) (now : Z) (c : t) : option Value * t :=
  let '(value, m) := CacheableMemory.get k now (_cache c) in
  let c1 := set_cache m c in
  match value with
  | Some _ => (value, set_lruCache (FastLRU.touch k (_lruCache c1)) c1)
  | None => (value, set_lruCache (FastLRU.delete k (_lruCache c1)) c1)
  end.

Definition getKey (k : string) (now : Z) (c : t) : option Value * t := get k now c.

(** The text [save] writes: the serialization cache if it is valid and
    holds a text, a fresh encoding otherwise, which then becomes the cache. *)
Definition snapshot (entries : list (Item Value)) (c : t) : string * t :=
  let fresh_text :=
    let data := _stringify c entries in
    (data, set_serializationCacheValid true (set_serializationCache (Some data) c)) in
  match _serializationCacheValid c, _serializationCache c with
  | true, Some text => if truthy text then (text, c) else fresh_text
  | _, _ => fresh_text
  end.

(** The body of [save] inside its [try]; the third component is what the
    [catch] receives. *)
Definition save_try (force : bool) (now : Z) (c : t) (fs : Fs.t)
    : t * Fs.t * option Err :=
  if _changesSinceLastSave c || force then
    let c1 := flushPendingWrites c in
    let filePath := cacheFilePath c1 in
    let entries := CacheableMemory.items now (_cache c1) in
    let '(data, c2) := snapshot entries c1 in
    match (if Fs.existsSync (_cacheDir c2) fs then Ok fs
           else Fs.mkdirSync (_cacheDir c2) fs) with
    | Throw e => (c2, fs, Some e)
    | Ok fs1 =>
      match Fs.writeFileSync filePath data fs1 with
      | Throw e => (c2, fs1, Some e)
      | Ok fs2 => (emit SAVE (set_changesSinceLastSave false c2), fs2, None)
      end
    end
  else (c, fs, None).

Definition save (force : bool) (now : Z) (c : t) (fs : Fs.t) : t * Fs.t :=
  match save_try force now c fs with
  | (c', fs', None) => (c', fs')
  | (c', fs', Some error) => (emit (ERROR error) c', fs')
  end.

Definition clear (now : Z) (c : t) (fs : Fs.t) : t * Fs.t :=
  let c1 := set_cache (CacheableMemory.clear (_cache c)) c in
  let c2 := set_lruCache (FastLRU.clear (_lruCache c1)) c1 in
  let c3 := set_changesSinceLastSave true c2 in
  let c4 := set_serializationCacheValid false c3 in
  let c5 := set_pendingWrites ∅ c4 in
  let '(c6, fs') := save false now c5 fs in
  (emit CLEAR c6, fs').

Definition removeCacheFile (c : t) (fs : Fs.t) : bool * t * Fs.t :=
  if Fs.existsSync (cacheFilePath c) fs then
    match Fs.rmSync (cacheFilePath c) fs with
    | Ok fs' => (true, c, fs')
    | Throw e => (false, emit (ERROR e) c, fs)
    end
  else (false, c, fs).

Definition destroy (includeCacheDirectory : bool) (c : t) (fs : Fs.t) : t * Fs.t :=
  let c1 := set_cache (CacheableMemory.clear (_cache c)) c in
  let c2 := set_lruCache (FastLRU.clear (_lruCache c1)) c1 in
  let c3 := set_serializationCache None c2 in
  let c4 := set_serializationCacheValid false c3 in
  let c5 := flushPendingWrites c4 in
  let c6 := stopAutoPersist c5 in
  match Fs.rmSync_rf (if includeCacheDirectory then cacheDirPath c6
                      else cacheFilePath c6) fs with
  | Ok fs' => (emit DESTROY (set_changesSinceLastSave false c6), fs')
  | Throw e => (emit (ERROR e) c6, fs)
  end.

(** The callbacks of the two timers. *)
Definition batchWriteTimer_fires (c : t) : t :=
  match _batchWriteTimer c with
  | Some _ => flushPendingWrites c
  | None => c
  end.

Definition persistTimer_fires (now : Z) (c : t) (fs : Fs.t) : t * Fs.t :=
  match _persistTimer c with
  | Some _ => save false now c fs
  | None => (c, fs)
  end.

Definition create (options : option (FlatCacheOptions.t Value)) (now : Z)
    (fs : Fs.t) : t :=
  load None None now (new options) fs.

Definition createFromFile (filePath : string)
    (options : option (FlatCacheOptions.t Value)) (now : Z) (fs : Fs.t)
    : t * option Err :=
  loadFile filePath now (new options) fs.



(** *** Runs of a cache

    What a program and the timers can do to an instance, one step at a
    time: the methods, the firing of a timer, and the assignments to the
    properties [cacheDir], [cacheId] and [persistInterval].  Each step
    happens at a time of the clock; what a method returns or throws is
    dropped, what it did to the instance and the disk stays. *)
Inductive Call : Type :=
  | CallSet (k : string) (v : Value) (ttl : option Z)
  | CallGet (k : string)
  | CallDelete (k : string)
  | CallClear
  | CallSave (force : bool)
  | CallLoad (cacheId cacheDir : option string)
  | CallLoadFile (pathToFile : string)
  | CallLoadFileStream (pathToFile : string) (withOnError : bool) (chunk : nat)
  | CallRemoveCacheFile
  | CallDestroy (includeCacheDirectory : bool)
  | CallStartAutoPersist
  | CallStopAutoPersist
  | BatchWriteTimerFires
  | PersistTimerFires
  | AssignCacheDir (value : string)
  | AssignCacheId (value : string)
  | AssignPersistInterval (value : Z).

Definition exec (call : Call) (now : Z) (w : t * Fs.t) : t * Fs.t :=
  let '(c, fs) := w in
  match call with
  | CallSet k v ttl => (set k v ttl now c, fs)
  | CallGet k => ((get k now c).2, fs)
  | CallDelete k => (delete k c, fs)
  | CallClear => clear now c fs
  | CallSave force => save force now c fs
  | CallLoad cacheId cacheDir => (load cacheId cacheDir now c fs, fs)
  | CallLoadFile p => ((loadFile p now c fs).1, fs)
  | CallLoadFileStream p e n => ((loadFileStream p e n now c fs).1.1, fs)
  | CallRemoveCacheFile =>
    let '(_, c', fs') := removeCacheFile c fs in (c', fs')
  | CallDestroy d => destroy d c fs
  | CallStartAutoPersist => (startAutoPersist c, fs)
  | CallStopAutoPersist => (stopAutoPersist c, fs)
  | BatchWriteTimerFires => (batchWriteTimer_fires c, fs)
  | PersistTimerFires => persistTimer_fires now c fs
  | AssignCacheDir value => (set_cacheDir value c, fs)
  | AssignCacheId value => (set_cacheId value c, fs)
  | AssignPersistInterval value => (set_persistInterval value c, fs)
  end.

Definition run (calls : list (Z * Call)) (w : t * Fs.t) : t * Fs.t :=
  foldl (λ w tc, exec tc.2 tc.1 w) w calls.

End Engine.
Arguments t Value : clear implicits.
Arguments Call Value : clear implicits.
End FlatCache.

(** ** The list a tracker stands for

    A well-formed tracker is a doubly linked chain of nodes from [head] to
    [tail]; [chain] lists the nodes of a tracker as handle and key, most
    recently used first. *)
Module Chain.
Import FastLRU.

Definition first (l : list (nat * string)) (dflt : option nat) : option nat :=
  match l with
  | [] => dflt
  | (h, _) :: _ => Some h
  end.

Definition final (l : list (nat * string)) (dflt : option nat) : option nat :=
  match last l with
  | Some (h, _) => Some h
  | None => dflt
  end.

(** The nodes of [l] are linked in this order, the first one pointing back
    to [p] and the last one on to [n]. *)
Fixpoint seg (hp : gmap nat LRUNode) (p : option nat)
    (l : list (nat * string)) (n : option nat) : Prop :=
  match l with
  | [] => True
  | (h, k) :: l' =>
    hp !! h = Some (mkNode k p (first l' n)) ∧ seg hp (Some h) l' n
  end.

(** The links of the tracker spell out [l]. *)
Record linked (t : FastLRU.t) (l : list (nat * string)) : Prop := mkLinked {
  linked_seg : seg (nodes t) None l None;
  linked_head : head t = first l None;
  linked_tail : tail t = final l None;
  linked_handles : NoDup l.*1
}.

(** The tracker stands for [l]: its links spell it out and its map holds
    exactly these keys. *)
Record repr (t : FastLRU.t) (l : list (nat * string)) : Prop := mkRepr {
  repr_linked : linked t l;
  repr_cache : ∀ k h, cache t !! k = Some h ↔ (h, k) ∈ l;
  repr_keys : NoDup l.*2;
  repr_fresh : ∀ h, h ∈ l.*1 → (h < fresh t)%nat
}.

(** [touch] on the list of keys. *)
Definition touch_keys (cap : nat) (k : string) (ks : list string) : list string :=
  if bool_decide (k ∈ ks) then k :: filter (λ x, x ≠ k) ks
  else if bool_decide (cap < S (length ks))%nat then removelast (k :: ks)
       else k :: ks.

End Chain.

(** ** Invariants of a running cache *)
Module Invariants.
Section Invariants.
Context {Value : Type} `{!Flatted Value}.

(** The tracker stands for a list of keys no longer than its capacity. *)
Definition tracker_ok (c : FlatCache.t Value) : Prop :=
  ∃ l, Chain.repr (FlatCache._lruCache c) l
       ∧ (length l ≤ FastLRU.capacity (FlatCache._lruCache c))%nat.

(** With no batch timer armed the pending-write set is empty. *)
Definition pending_ok (c : FlatCache.t Value) : Prop :=
  FlatCache._batchWriteTimer c = None → FlatCache._pendingWrites c = ∅.




(** An armed auto-persist timer has a positive period. *)
Definition persist_ok (c : FlatCache.t Value) : Prop :=
  ∀ period, FlatCache._persistTimer c = Some period → 0 < period.

(** A snapshot marked valid holds a text, and no batch timer is armed. *)
Definition snapshot_ok (c : FlatCache.t Value) : Prop :=
  FlatCache._serializationCacheValid c = true →
  is_Some (FlatCache._serializationCache c)
  ∧ FlatCache._batchWriteTimer c = None.

End Invariants.
End Invariants.

(** ** Concrete runs

    File systems, options and programs over integer values on which the
    engine is run. *)
Module Scenario.

(** An empty disk, a disk that refuses to write the default cache file, a
    disk that holds a cache file of an earlier run, and a disk with a
    snapshot under another name. *)
Definition disk : Fs.t := Fs.mk ∅ ∅ ∅.
Definition extra_disk : Fs.t := Fs.mk {["extra" := "b=2@;"]} ∅ ∅.

(** A cache whose tracker has room for two keys. *)
Definition small : FlatCacheOptions.t Z :=
  FlatCacheOptions.mk None None None None None None (Some 2%nat) None None.

Definition fresh : FlatCache.t Z := FlatCache.new None.

(** [set("a", 1)] at time 0 and [set("b", 2, 5)] at time 1. *)
Definition two_sets : list (Z * FlatCache.Call Z) :=
  [(0, FlatCache.CallSet "a" 1 None); (1, FlatCache.CallSet "b" 2 (Some 5))].

(** [set] of three keys, one after the other. *)
Definition three_sets : list (Z * FlatCache.Call Z) :=
  [(0, FlatCache.CallSet "a" 1 None); (1, FlatCache.CallSet "b" 2 None);
   (2, FlatCache.CallSet "c" 3 None)].

(** [set] of the keys [key0] to [key9] within the batch delay. *)
Definition ten_sets : list (Z * FlatCache.Call Z) :=
  (λ i : nat, (Z.of_nat i,
               FlatCache.CallSet ("key" +:+ LineCodec.to_dec (Z.of_nat i))
                                 (Z.of_nat i) None))
    <$> seq 0 10.

(** [set("a", 1)], [save()], [loadFile("extra")], [save()]. *)
Definition set_save_loadFile_save : list (Z * FlatCache.Call Z) :=
  [(0, FlatCache.CallSet "a" 1 None); (1, FlatCache.CallSave false);
   (2, FlatCache.CallLoadFile "extra"); (3, FlatCache.CallSave false)].

End Scenario.

Module ChainFacts.
Import FastLRU Chain.

Lemma first_app l1 l2 d : first (l1 ++ l2) d = first l1 (first l2 d).
Proof. by destruct l1 as [|[??]?]. Qed.

Lemma final_app l1 l2 d : final (l1 ++ l2) d = final l2 (final l1 d).
Proof.
  unfold final. rewrite last_app. destruct (last l2) as [[??]|]; done.
Qed.

Lemma final_snoc l h k d : final (l ++ [(h, k)]) d = Some h.
Proof. by rewrite final_app. Qed.

Lemma final_cons h k l d : final ((h, k) :: l) d = final l (Some h).
Proof. by rewrite (final_app [(h,k)] l). Qed.

Lemma seg_app hp p l1 l2 n :
  seg hp p (l1 ++ l2) n ↔ seg hp p l1 (first l2 n) ∧ seg hp (final l1 p) l2 n.
Proof.
  revert p. induction l1 as [|[h k] l1 IH]; intros p; simpl.
  - tauto.
  - rewrite IH, first_app, final_cons. tauto.
Qed.

Lemma seg_frame hp hp' p l n :
  (∀ h, h ∈ l.*1 → hp' !! h = hp !! h) → seg hp p l n → seg hp' p l n.
Proof.
  revert p. induction l as [|[h k] l IH]; intros p Hag; simpl; [done|].
  intros [Hh Hs]. split.
  - rewrite Hag; [done|]. simpl. left.
  - apply IH; [|done]. intros h' Hin. apply Hag. simpl. by right.
Qed.

Lemma seg_lookup hp p l n h k :
  seg hp p l n → (h, k) ∈ l → ∃ nd, hp !! h = Some nd ∧ key nd = k.
Proof.
  revert p. induction l as [|[h' k'] l IH]; intros p; simpl.
  - intros _ Hin. by apply elem_of_nil in Hin.
  - intros [Hh Hs] Hin. apply elem_of_cons in Hin as [[= -> ->]|Hin]; eauto.
Qed.


Lemma seg_mid hp p l1 h k l2 n :
  seg hp p (l1 ++ (h, k) :: l2) n →
  hp !! h = Some (mkNode k (final l1 p) (first l2 n)).
Proof. rewrite seg_app. simpl. tauto. Qed.

Lemma seg_set_next hp p l h k n x :
  h ∉ l.*1 → seg hp p (l ++ [(h, k)]) n →
  seg (set_next h x hp) p (l ++ [(h, k)]) x.
Proof.
  intros Hh. rewrite !seg_app. simpl. intros (Hl & Hn & _). split.
  - eapply seg_frame; [|done]. intros h' Hin. unfold set_next.
    apply lookup_alter_ne. congruence.
  - split; [|done]. unfold set_next. by rewrite lookup_alter_eq, Hn.
Qed.

Lemma seg_set_prev hp p h k l n y :
  h ∉ l.*1 → seg hp p ((h, k) :: l) n →
  seg (set_prev h y hp) y ((h, k) :: l) n.
Proof.
  intros Hh. simpl. intros [Hn Hl]. split.
  - unfold set_prev. by rewrite lookup_alter_eq, Hn.
  - eapply seg_frame; [|done]. intros h' Hin. unfold set_prev.
    apply lookup_alter_ne. congruence.
Qed.

Lemma seg_set_next_frame hp p l n h x :
  h ∉ l.*1 → seg hp p l n → seg (set_next h x hp) p l n.
Proof.
  intros Hh. apply seg_frame. intros h' Hin. unfold set_next.
  apply lookup_alter_ne. congruence.
Qed.

Lemma seg_set_prev_frame hp p l n h x :
  h ∉ l.*1 → seg hp p l n → seg (set_prev h x hp) p l n.
Proof.
  intros Hh. apply seg_frame. intros h' Hin. unfold set_prev.
  apply lookup_alter_ne. congruence.
Qed.

(** Unlinking the node [h] of a chain. *)
Lemma removeNode_linked t l1 h k l2 :
  linked t (l1 ++ (h, k) :: l2) →
  linked (removeNode h t) (l1 ++ l2)
  ∧ cache (removeNode h t) = cache t
  ∧ capacity (removeNode h t) = capacity t
  ∧ fresh (removeNode h t) = fresh t
  ∧ ∃ nd, nodes (removeNode h t) !! h = Some nd ∧ key nd = k.
Proof.
  intros [Hseg Hhead Htail Hnd].
  pose proof (seg_mid _ _ _ _ _ _ _ Hseg) as Hh.
  rewrite fmap_app, fmap_cons in Hnd. simpl in Hnd.
  apply NoDup_app in Hnd as (Hnd1 & Hdisj & Hnd2).
  apply NoDup_cons in Hnd2 as [Hh2 Hnd2].
  assert (Hh1 : h ∉ l1.*1) by (intros Hin; eapply Hdisj; [done|left]).
  assert (Hd12 : ∀ x, x ∈ l1.*1 → x ∉ l2.*1)
    by (intros x Hx Hx2; eapply Hdisj; [done|by right]).
  apply seg_app in Hseg as [Hs1 Hs2]. simpl in Hs1, Hs2.
  destruct Hs2 as [_ Hs2].
  unfold removeNode, prev_of, next_of. rewrite Hh. simpl.
  destruct l1 as [|[p kp] l1 _] using rev_ind.
  - (* the node is the head *)
    simpl in *. rewrite Hh. simpl.
    destruct l2 as [|[q kq] l2]; simpl.
    + split; [constructor; simpl; eauto using NoDup_nil_2|].
      split_and!; eauto.
    + split; [constructor; simpl|split_and!; simpl; try done].
      * apply NoDup_cons in Hnd2 as [Hq _].
        by eapply (seg_set_prev _ _ _ _ _ _ None) in Hs2.
      * done.
      * by rewrite Htail, !final_cons.
      * done.
      * exists (mkNode k None (Some q)). split; [|done].
        unfold set_prev. rewrite lookup_alter_ne; [done|].
        intros ->. apply Hh2. simpl. left.
  - (* the node has a predecessor [p] *)
    rewrite final_snoc in *. simpl.
    assert (Hph : p ≠ h).
    { intros ->. apply Hh1. rewrite fmap_app. apply elem_of_app. right. simpl. left. }
    rewrite fmap_app in Hnd1. apply NoDup_app in Hnd1 as (Hnd1 & Hp1 & _).
    assert (Hp : p ∉ l1.*1).
    { intros Hin. eapply Hp1; [done|]. simpl. left. }
    assert (Hnd1' : NoDup (l1 ++ [(p, kp)]).*1).
    { rewrite fmap_app. apply NoDup_app. split; [done|]. split.
      - intros x Hx Hx'. apply list_elem_of_singleton in Hx'. simpl in Hx'. by subst.
      - simpl. apply NoDup_singleton. }
    assert (Hh' : ∀ x, set_next p x (nodes t) !! h = nodes t !! h).
    { intros x. unfold set_next. by rewrite lookup_alter_ne. }
    rewrite !Hh', !Hh. simpl.
    assert (Hp2 : p ∉ l2.*1).
    { apply Hd12. rewrite fmap_app. apply elem_of_app. right. simpl. left. }
    destruct l2 as [|[q kq] l2]; simpl.
    + rewrite app_nil_r.
      split; [constructor; simpl|split_and!; simpl; try done].
      * by eapply seg_set_next.
      * rewrite Hhead. by rewrite !first_app.
      * by rewrite final_snoc.
      * done.
      * exists (mkNode k (Some p) None). split; [|done].
        unfold set_next. by rewrite lookup_alter_ne.
    + apply NoDup_cons in Hnd2 as [Hq Hnd2].
      assert (Hqh : q ≠ h) by (intros ->; apply Hh2; simpl; left).
      assert (Hq1 : q ∉ (l1 ++ [(p, kp)]).*1).
      { intros Hin. eapply Hd12; [done|]. simpl. left. }
      split; [constructor; simpl|split_and!; simpl; try done].
      * apply seg_app. split.
        -- simpl. apply seg_set_prev_frame; [done|]. by eapply seg_set_next.
        -- rewrite final_snoc.
           eapply (seg_set_prev _ _ _ _ _ _ (Some p)); [done|].
           by apply seg_set_next_frame.
      * rewrite Hhead. by rewrite !first_app.
      * rewrite Htail. rewrite !final_app. by rewrite !final_cons.
      * rewrite fmap_app. apply NoDup_app. split; [done|]. split.
        -- intros x Hx Hx'. by eapply Hd12.
        -- simpl. by constructor.
      * exists (mkNode k (Some p) (Some q)). split; [|done].
        unfold set_prev, set_next. by rewrite !lookup_alter_ne.
Qed.


(** Linking the unlinked node [h] in front of a chain. *)
Lemma addToFront_linked t l h k nd :
  linked t l → h ∉ l.*1 → nodes t !! h = Some nd → key nd = k →
  linked (addToFront h t) ((h, k) :: l)
  ∧ cache (addToFront h t) = cache t
  ∧ capacity (addToFront h t) = capacity t
  ∧ fresh (addToFront h t) = fresh t.
Proof.
  intros [Hseg Hhead Htail Hnd] Hh Hlook <-.
  assert (Hnode : ∀ x, set_prev h None (set_next h x (nodes t)) !! h
                       = Some (mkNode (key nd) None x)).
  { intros x. unfold set_prev, set_next. by rewrite !lookup_alter_eq, Hlook. }
  assert (Hfr : ∀ x p' l' n', h ∉ l'.*1 → seg (nodes t) p' l' n' →
                seg (set_prev h None (set_next h x (nodes t))) p' l' n').
  { intros. by apply seg_set_prev_frame, seg_set_next_frame. }
  unfold addToFront.
  destruct l as [|[q kq] l]; simpl in *.
  - rewrite Hhead. simpl. rewrite Htail.
    split; [constructor; simpl|done].
    + by rewrite Hnode.
    + done.
    + done.
    + apply NoDup_singleton.
  - rewrite Hhead. simpl. rewrite Htail, final_cons.
    assert (Hqh : q ≠ h) by (intros ->; apply Hh; left).
    apply NoDup_cons in Hnd as [Hq Hnd'].
    destruct (final l (Some q)) as [tl|] eqn:Htl.
    + split; [constructor; simpl|done].
      * split.
        -- unfold set_prev at 1. rewrite lookup_alter_ne by done. apply Hnode.
        -- eapply (seg_set_prev _ _ _ _ _ _ (Some h)); [done|]. apply Hfr; [|done].
           simpl. intros [->|Hin]%elem_of_cons; [done|]. apply Hh. by right.
      * done.
      * by rewrite Htail, !final_cons.
      * constructor; [done|]. by constructor.
    + exfalso. unfold final in Htl. destruct (last l) as [[??]|]; done.
Qed.

Lemma repr_cache_eq t l :
  repr t l → cache t = list_to_map ((λ hk : nat * string, (hk.2, hk.1)) <$> l).
Proof.
  intros [_ Hc Hk _]. apply map_eq. intros k.
  assert (Hnd : NoDup ((λ hk : nat * string, (hk.2, hk.1)) <$> l).*1).
  { by rewrite <- list_fmap_compose. }
  apply option_eq. intros h. rewrite Hc.
  rewrite <- elem_of_list_to_map by done.
  rewrite list_elem_of_fmap. split.
  - intros Hin. by exists (h, k).
  - intros ([h' k'] & [= -> ->] & Hin). done.
Qed.

Lemma repr_size t l : repr t l → size (cache t) = length l.
Proof.
  intros Hr. rewrite (repr_cache_eq _ _ Hr).
  rewrite map_size_list_to_map.
  - by rewrite length_fmap.
  - rewrite <- list_fmap_compose. apply Hr.
Qed.

Lemma repr_has t l k : repr t l → has k t = true ↔ k ∈ l.*2.
Proof.
  intros [_ Hc _ _]. unfold has. rewrite bool_decide_eq_true.
  rewrite list_elem_of_fmap. split.
  - intros [h Hh]. apply Hc in Hh. by exists (h, k).
  - intros ([h k'] & -> & Hin). exists h. by apply Hc.
Qed.

Lemma walk_seg hp p l fuel :
  seg hp p l None → (length l ≤ fuel)%nat → walk fuel hp (first l None) = l.*2.
Proof.
  revert p fuel. induction l as [|[h k] l IH]; intros p fuel; simpl.
  - intros _ _. by destruct fuel.
  - intros [Hh Hs] Hlen. destruct fuel as [|fuel]; [lia|]. simpl.
    rewrite Hh. simpl. f_equal. eapply IH; [done|lia].
Qed.

Lemma repr_order t l : repr t l → order t = l.*2.
Proof.
  intros Hr. unfold order. rewrite (repr_size _ _ Hr).
  destruct Hr as [[Hs Hh _ _] _ _ _]. rewrite Hh. by eapply walk_seg.
Qed.

Lemma new_repr cap : repr (new cap) [].
Proof.
  split; [split|..]; simpl; try done.
  - apply NoDup_nil_2.
  - intros k h. rewrite lookup_empty. split; [done|]. by intros ?%elem_of_nil.
  - apply NoDup_nil_2.
  - by intros h ?%elem_of_nil.
Qed.

Lemma clear_repr t : repr (clear t) [].
Proof.
  split; [split|..]; simpl; try done.
  - apply NoDup_nil_2.
  - intros k h. rewrite lookup_empty. split; [done|]. by intros ?%elem_of_nil.
  - apply NoDup_nil_2.
  - by intros h ?%elem_of_nil.
Qed.


Lemma linked_with_cache f t l : linked t l → linked (with_cache f t) l.
Proof. intros [????]. by constructor. Qed.

Lemma filter_ne_absent (l : list string) k :
  k ∉ l → filter (λ x, x ≠ k) l = l.
Proof.
  induction l as [|x l IH]; [done|]. intros Hk.
  apply not_elem_of_cons in Hk as [Hx Hl].
  rewrite filter_cons_True by congruence. by rewrite IH.
Qed.

Lemma filter_ne_middle (l1 l2 : list string) k :
  NoDup (l1 ++ k :: l2) → filter (λ x, x ≠ k) (l1 ++ k :: l2) = l1 ++ l2.
Proof.
  intros Hnd. apply NoDup_app in Hnd as (_ & H1 & [H2 _]%NoDup_cons).
  rewrite filter_app, filter_cons_False by (intros ?; done).
  rewrite !filter_ne_absent; [done|done|].
  intros Hin. by eapply H1; [|left].
Qed.

(** Dropping the entry [(h, k)] of a represented tracker. *)
Lemma repr_drop t t' l1 h k l2 :
  repr t (l1 ++ (h, k) :: l2) →
  linked t' (l1 ++ l2) →
  cache t' = base.delete k (cache t) →
  fresh t' = fresh t →
  repr t' (l1 ++ l2).
Proof.
  intros [_ Hc Hk Hf] Hl Hc' Hf'.
  assert (Hperm : l1 ++ (h, k) :: l2 ≡ₚ (h, k) :: (l1 ++ l2))
    by (symmetry; apply Permutation_middle).
  rewrite Hperm in Hk. simpl in Hk. apply NoDup_cons in Hk as [Hk Hk'].
  split; [done| |done|].
  - intros k' h'. rewrite Hc'. destruct (decide (k' = k)) as [->|Hne].
    + rewrite lookup_delete_eq. split; [done|]. intros Hin. exfalso.
      apply Hk. apply list_elem_of_fmap. by exists (h', k).
    + rewrite lookup_delete_ne by done. rewrite Hc, Hperm.
      rewrite elem_of_cons. split; [|by right].
      intros [[= _ ?]|?]; [done|done].
  - intros h' Hin. rewrite Hf'. apply Hf. rewrite Hperm. simpl. by right.
Qed.

Lemma delete_repr t l k :
  repr t l →
  ∃ l', repr (delete k t) l'
        ∧ l'.*2 = filter (λ x, x ≠ k) l.*2
        ∧ capacity (delete k t) = capacity t.
Proof.
  intros Hr. unfold delete. destruct (cache t !! k) as [h|] eqn:Hk.
  - pose proof Hr as [Hl Hc Hnd Hf]. apply Hc in Hk.
    apply list_elem_of_split in Hk as (l1 & l2 & ->).
    destruct (removeNode_linked _ _ _ _ _ Hl) as (Hl' & Hc' & Hcap & Hf' & _).
    exists (l1 ++ l2). split_and!.
    + eapply repr_drop; [done| |simpl; by rewrite Hc'|done].
      by apply linked_with_cache.
    + rewrite !fmap_app, fmap_cons in *. simpl. by rewrite filter_ne_middle.
    + done.
  - exists l. split_and!; [done| |done].
    rewrite filter_ne_absent; [done|]. intros Hin.
    apply list_elem_of_fmap in Hin as ([h k'] & -> & Hin).
    apply Hr in Hin. simpl in *. congruence.
Qed.

Lemma touch_repr t l k :
  repr t l →
  ∃ l', repr (touch k t) l'
        ∧ l'.*2 = touch_keys (capacity t) k l.*2
        ∧ capacity (touch k t) = capacity t.
Proof.
  intros Hr. pose proof Hr as [Hl Hc Hnd Hf].
  unfold touch, touch_keys. destruct (cache t !! k) as [h|] eqn:Hk.
  - (* a key the tracker holds *)
    apply Hc in Hk.
    assert (Hkin : k ∈ l.*2) by (apply list_elem_of_fmap; by exists (h, k)).
    rewrite (bool_decide_eq_true_2 (k ∈ l.*2)) by done.
    apply list_elem_of_split in Hk as (l1 & l2 & ->).
    assert (Hks : filter (λ x, x ≠ k) (l1 ++ (h, k) :: l2).*2 = (l1 ++ l2).*2).
    { rewrite !fmap_app, fmap_cons in *. simpl. by rewrite filter_ne_middle. }
    rewrite Hks. unfold moveToFront. case_bool_decide as Hhd.
    + (* already the head *)
      destruct Hl as [_ Hh _ Hndh]. rewrite Hh, first_app in Hhd.
      destruct l1 as [|[h1 k1] l1]; simpl in *.
      * exists ((h, k) :: l2). done.
      * exfalso. injection Hhd as <-. apply NoDup_cons in Hndh as [Hndh _].
        apply Hndh. rewrite fmap_app. apply elem_of_app. right. simpl. left.
    + destruct (removeNode_linked _ _ _ _ _ Hl)
        as (Hl' & Hc' & Hcap & Hf' & nd & Hnode & Hkey).
      assert (Hperm : l1 ++ (h, k) :: l2 ≡ₚ (h, k) :: (l1 ++ l2))
        by (symmetry; apply Permutation_middle).
      assert (Hh : h ∉ (l1 ++ l2).*1).
      { destruct Hl as [_ _ _ Hndh]. rewrite Hperm in Hndh. simpl in Hndh.
        by apply NoDup_cons in Hndh as [? _]. }
      destruct (addToFront_linked _ _ _ _ _ Hl' Hh Hnode Hkey)
        as (Hl'' & Hc'' & Hcap'' & Hf'').
      exists ((h, k) :: (l1 ++ l2)). split_and!; [|done|congruence].
      split; [done| | |].
      * intros k' h'. rewrite Hc'', Hc', Hc. by rewrite Hperm.
      * by rewrite <- Hperm.
      * intros h'. rewrite Hf'', Hf', <- Hperm. apply Hf.
  - (* a new key *)
    assert (Hkin : k ∉ l.*2).
    { intros Hin. apply list_elem_of_fmap in Hin as ([h k'] & -> & Hin).
      apply Hc in Hin. simpl in *. congruence. }
    rewrite (bool_decide_eq_false_2 (k ∈ l.*2)) by done.
    set (t1 := mk (capacity t) (<[k:=fresh t]> (cache t))
                  (<[fresh t:=mkNode k None None]> (nodes t))
                  (head t) (tail t) (S (fresh t))).
    assert (Hfh : fresh t ∉ l.*1).
    { intros Hin. apply Hf in Hin. lia. }
    assert (Hl1 : linked t1 l).
    { destruct Hl as [Hs ? ? ?]. constructor; try done. simpl.
      eapply seg_frame; [|done]. intros h' Hin.
      apply lookup_insert_ne. congruence. }
    assert (Hn1 : nodes t1 !! fresh t = Some (mkNode k None None))
      by apply lookup_insert_eq.
    destruct (addToFront_linked _ _ _ k _ Hl1 Hfh Hn1 eq_refl)
      as (Hl2 & Hc2 & Hcap2 & Hf2).
    set (t2 := addToFront (fresh t) t1) in *.
    assert (Hr2 : repr t2 ((fresh t, k) :: l)).
    { split; [done| | |].
      - intros k' h'. rewrite Hc2. simpl. rewrite elem_of_cons.
        destruct (decide (k' = k)) as [->|Hne].
        + rewrite lookup_insert_eq. split.
          * intros [= <-]. by left.
          * intros [[= -> ]|Hin]; [done|]. exfalso. apply Hkin.
            apply list_elem_of_fmap. by exists (h', k).
        + rewrite lookup_insert_ne by done. rewrite Hc. split; [by right|].
          intros [[= _ ?]|?]; done.
      - simpl. by constructor.
      - intros h'. rewrite Hf2. simpl. intros [->|Hin]%elem_of_cons; [lia|].
        apply Hf in Hin. lia. }
    rewrite Hcap2. simpl capacity.
    rewrite (repr_size _ _ Hr2). simpl length. rewrite length_fmap.
    case_bool_decide as Hcap; [|exists ((fresh t, k) :: l); by split_and!].
    (* over capacity: the tail goes *)
    destruct (exists_last (l:=(fresh t, k) :: l)) as (l0 & [hl kl] & Hsplit); [done|].
    rewrite Hsplit in *.
    unfold removeLRU. destruct Hl2 as [Hs2 Hh2 Ht2 Hnd2].
    rewrite Ht2, final_snoc.
    assert (Hmid : nodes t2 !! hl = Some (mkNode kl (final l0 None) None)).
    { pose proof (seg_mid _ _ _ _ _ _ _ Hs2) as Hm. by simpl in Hm. }
    rewrite Hmid. simpl key.
    assert (Hl2' : linked (with_cache (base.delete kl) t2) (l0 ++ (hl, kl) :: []))
      by (by apply linked_with_cache).
    destruct (removeNode_linked _ _ _ _ _ Hl2') as (Hl3 & Hc3 & Hcap3 & Hf3 & _).
    rewrite app_nil_r in Hl3.
    exists l0. split_and!.
    + rewrite <- (app_nil_r l0). eapply repr_drop; [exact Hr2| | |].
      * by rewrite app_nil_r.
      * by rewrite Hc3.
      * by rewrite Hf3.
    + change (k :: l.*2) with ((fresh t, k) :: l).*2. rewrite Hsplit.
      rewrite fmap_app. simpl. by rewrite removelast_last.
    + by rewrite Hcap3.
Qed.

Lemma touch_keys_length cap k ks :
  (length ks ≤ cap → length (touch_keys cap k ks) ≤ cap)%nat.
Proof.
  intros Hlen. unfold touch_keys. case_bool_decide as Hin.
  - apply list_elem_of_split in Hin as (l1 & l2 & ->).
    simpl. rewrite filter_app, filter_cons_False by (intros ?; done).
    pose proof (length_filter (λ x, x ≠ k) l1).
    pose proof (length_filter (λ x, x ≠ k) l2).
    rewrite ?length_app in *. simpl in *. lia.
  - case_bool_decide as Hcap; [|simpl; lia].
    destruct (exists_last (l:=k :: ks)) as (l0 & x & Hsplit); [done|].
    rewrite Hsplit, removelast_last.
    apply (f_equal length) in Hsplit. rewrite length_app in Hsplit.
    simpl in Hsplit. lia.
Qed.

Lemma take_removelast {A} (l : list A) : removelast l = take (length l - 1) l.
Proof.
  destruct (decide (l = [])) as [->|Hne]; [done|].
  destruct (exists_last Hne) as (l0 & x & ->).
  rewrite removelast_last, length_app. simpl.
  replace (length l0 + 1 - 1)%nat with (length l0) by lia.
  by rewrite take_app_length.
Qed.

Lemma touch_keys_take cap k ks :
  NoDup ks → (length ks ≤ cap)%nat →
  touch_keys cap k ks = take cap (k :: filter (λ x, x ≠ k) ks).
Proof.
  intros Hnd Hlen. unfold touch_keys. case_bool_decide as Hin.
  - rewrite take_ge; [done|].
    apply list_elem_of_split in Hin as (l1 & l2 & ->).
    rewrite filter_ne_middle by done. rewrite length_app in Hlen.
    simpl in *. rewrite length_app. lia.
  - rewrite filter_ne_absent by done. case_bool_decide as Hcap.
    + rewrite take_removelast. simpl length. f_equal. lia.
    + rewrite take_ge; [done|]. simpl. lia.
Qed.

End ChainFacts.

(** ** Facts about the facade *)
Module EngineFacts.
Section EngineFacts.
Context {Value : Type} `{!Flatted Value}.
Implicit Types (c : FlatCache.t Value) (fs : Fs.t) (now : Z) (k : string).
Import Invariants.

Lemma run_invariant (P : FlatCache.t Value * Fs.t → Prop) calls w :
  P w → (∀ call now w, P w → P (FlatCache.exec call now w)) → P (FlatCache.run calls w).
Proof.
  intros Hw Hstep. revert w Hw. unfold FlatCache.run.
  induction calls as [|[now call] calls IH]; intros w Hw; simpl; [done|].
  apply IH. by apply Hstep.
Qed.


(** *** The parts of the state each method leaves alone *)

Lemma flushPendingWrites_frame c :
  let c' := FlatCache.flushPendingWrites c in
  FlatCache._lruCache c' = FlatCache._lruCache c
  ∧ FlatCache._cache c' = FlatCache._cache c
  ∧ FlatCache._changesSinceLastSave c' = FlatCache._changesSinceLastSave c
  ∧ FlatCache._serializationCacheValid c' = FlatCache._serializationCacheValid c
  ∧ FlatCache._serializationCache c' = FlatCache._serializationCache c
  ∧ FlatCache.emitted c' = FlatCache.emitted c
  ∧ FlatCache._cacheDir c' = FlatCache._cacheDir c
  ∧ FlatCache._cacheId c' = FlatCache._cacheId c
  ∧ FlatCache._stringify c' = FlatCache._stringify c
  ∧ FlatCache._batchWriteTimer c' = None
  ∧ FlatCache._pendingWrites c' = ∅.
Proof.
  unfold FlatCache.flushPendingWrites.
  destruct (FlatCache._batchWriteTimer c) eqn:Ht; simpl;
    case_bool_decide as Hs; simpl; split_and!; try done.
  all: apply map_size_empty_iff; lia.
Qed.

Lemma snapshot_frame entries c :
  let c' := (FlatCache.snapshot entries c).2 in
  FlatCache._lruCache c' = FlatCache._lruCache c
  ∧ FlatCache._cache c' = FlatCache._cache c
  ∧ FlatCache._changesSinceLastSave c' = FlatCache._changesSinceLastSave c
  ∧ FlatCache.emitted c' = FlatCache.emitted c
  ∧ FlatCache._cacheDir c' = FlatCache._cacheDir c
  ∧ FlatCache._cacheId c' = FlatCache._cacheId c
  ∧ FlatCache._batchWriteTimer c' = FlatCache._batchWriteTimer c
  ∧ FlatCache._pendingWrites c' = FlatCache._pendingWrites c.
Proof.
  unfold FlatCache.snapshot.
  destruct (FlatCache._serializationCacheValid c),
    (FlatCache._serializationCache c) as [text|]; simpl; try done.
  by destruct (FlatCache.truthy text).
Qed.

Lemma save_try_frame force now c fs :
  let c' := (FlatCache.save_try force now c fs).1.1 in
  FlatCache._lruCache c' = FlatCache._lruCache c
  ∧ FlatCache._cache c' = FlatCache._cache c
  ∧ FlatCache._cacheDir c' = FlatCache._cacheDir c
  ∧ FlatCache._cacheId c' = FlatCache._cacheId c.
Proof.
  unfold FlatCache.save_try.
  destruct (_ || _); [|done].
  destruct (FlatCache.snapshot _ _) as [data c2] eqn:Hsnap.
  pose proof (snapshot_frame
    (CacheableMemory.items now (FlatCache._cache (FlatCache.flushPendingWrites c)))
    (FlatCache.flushPendingWrites c)) as Hf.
  rewrite Hsnap in Hf. simpl in Hf.
  pose proof (flushPendingWrites_frame c) as Hg. simpl in Hg.
  destruct Hf as (? & ? & _ & _ & ? & ? & _).
  destruct Hg as (? & ? & _ & _ & _ & _ & ? & ? & _).
  repeat case_match; simpl; split_and!; congruence.
Qed.

Lemma save_frame force now c fs :
  let c' := (FlatCache.save force now c fs).1 in
  FlatCache._lruCache c' = FlatCache._lruCache c
  ∧ FlatCache._cache c' = FlatCache._cache c
  ∧ FlatCache._cacheDir c' = FlatCache._cacheDir c
  ∧ FlatCache._cacheId c' = FlatCache._cacheId c.
Proof.
  pose proof (save_try_frame force now c fs) as Hf. unfold FlatCache.save.
  destruct (FlatCache.save_try force now c fs) as [[c' fs'] [e|]]; done.
Qed.


Lemma scheduleBatchWrite_frame now c :
  let c' := FlatCache.scheduleBatchWrite now c in
  FlatCache._lruCache c' = FlatCache._lruCache c
  ∧ FlatCache._cache c' = FlatCache._cache c
  ∧ FlatCache._changesSinceLastSave c' = FlatCache._changesSinceLastSave c
  ∧ FlatCache._serializationCacheValid c' = FlatCache._serializationCacheValid c
  ∧ FlatCache.emitted c' = FlatCache.emitted c.
Proof.
  unfold FlatCache.scheduleBatchWrite.
  pose proof (flushPendingWrites_frame c) as Hf. simpl in Hf.
  destruct (FlatCache._batchWriteTimer c); [done|].
  case_bool_decide; simpl; [|done]. clear -Hf. intuition congruence.
Qed.

Lemma loadFile_frame p now c fs :
  let c' := (FlatCache.loadFile p now c fs).1 in
  FlatCache._lruCache c' = FlatCache._lruCache c
  ∧ FlatCache._batchWriteTimer c' = FlatCache._batchWriteTimer c
  ∧ FlatCache._pendingWrites c' = FlatCache._pendingWrites c
  ∧ FlatCache._serializationCacheValid c' = FlatCache._serializationCacheValid c
  ∧ FlatCache._serializationCache c' = FlatCache._serializationCache c
  ∧ FlatCache.emitted c' = FlatCache.emitted c.
Proof. unfold FlatCache.loadFile. repeat case_match; done. Qed.

(** What a step does to the tracker: nothing, a touch, a delete or a clear. *)
Lemma exec_tracker call now c fs :
  let l := FlatCache._lruCache c in
  let l' := FlatCache._lruCache (FlatCache.exec call now (c, fs)).1 in
  l' = l ∨ (∃ k, l' = FastLRU.touch k l) ∨ (∃ k, l' = FastLRU.delete k l)
  ∨ l' = FastLRU.clear l.
Proof.
  destruct call; simpl.
  - right; left. exists k. unfold FlatCache.set.
    by rewrite (proj1 (scheduleBatchWrite_frame _ _)).
  - unfold FlatCache.get.
    destruct (CacheableMemory.get k now (FlatCache._cache c)) as [[v|] m]; simpl; eauto.
  - right; right; left. by exists k.
  - right; right; right. unfold FlatCache.clear.
    match goal with |- context [FlatCache.save ?f ?n ?x ?y] =>
      pose proof (save_frame f n x y) as Hs; destruct (FlatCache.save f n x y) end.
    simpl in *. by destruct Hs as [-> _].
  - left. apply save_frame.
  - left. unfold FlatCache.load.
    match goal with |- context [FlatCache.loadFile ?p ?n ?x ?y] =>
      pose proof (loadFile_frame p n x y) as Hs; destruct (FlatCache.loadFile p n x y) as [? []] end;
    simpl in *; by destruct Hs as [-> _].
  - left. apply loadFile_frame.
  - left. unfold FlatCache.loadFileStream. repeat case_match; done.
  - left. unfold FlatCache.removeCacheFile. repeat case_match; simplify_eq/=; done.
  - right; right; right. unfold FlatCache.destroy.
    match goal with |- context [FlatCache.flushPendingWrites ?x] =>
      pose proof (flushPendingWrites_frame x) as Hs end.
    simpl in Hs. destruct Hs as [Hs _].
    unfold FlatCache.stopAutoPersist. repeat case_match; simpl; by rewrite Hs.
  - left. unfold FlatCache.startAutoPersist. by case_match.
  - left. unfold FlatCache.stopAutoPersist. by case_match.
  - left. unfold FlatCache.batchWriteTimer_fires. case_match; [|done].
    apply flushPendingWrites_frame.
  - left. unfold FlatCache.persistTimer_fires. case_match; [|done].
    apply save_frame.
  - by left.
  - by left.
  - by left.
Qed.

Lemma capacity_delete k l : FastLRU.capacity (FastLRU.delete k l) = FastLRU.capacity l.
Proof.
  unfold FastLRU.delete, FastLRU.removeNode. repeat case_match; done.
Qed.

Lemma exec_tracker_ok call now c fs :
  tracker_ok c →
  tracker_ok (FlatCache.exec call now (c, fs)).1
  ∧ FastLRU.capacity (FlatCache._lruCache (FlatCache.exec call now (c, fs)).1)
    = FastLRU.capacity (FlatCache._lruCache c).
Proof.
  intros (l & Hr & Hlen). unfold tracker_ok.
  destruct (exec_tracker call now c fs) as [Heq|[[k Heq]|[[k Heq]|Heq]]]; rewrite Heq.
  - eauto.
  - destruct (ChainFacts.touch_repr _ _ k Hr) as (l' & Hr' & Hk & Hcap).
    split; [|done]. exists l'. split; [done|]. rewrite Hcap.
    rewrite <- (length_fmap snd l'), Hk.
    apply ChainFacts.touch_keys_length. by rewrite length_fmap.
  - destruct (ChainFacts.delete_repr _ _ k Hr) as (l' & Hr' & Hk & Hcap).
    split; [|done]. exists l'. split; [done|]. rewrite Hcap.
    rewrite <- (length_fmap snd l'), Hk.
    etrans; [apply length_filter|]. by rewrite length_fmap.
  - split; [|done]. exists []. split; [apply ChainFacts.clear_repr|simpl; lia].
Qed.

Lemma new_fields options :
  let c := FlatCache.new (Value:=Value) options in
  FlatCache._lruCache c
  = FastLRU.new (default 1000%nat (options ≫= FlatCacheOptions.inMemoryLruSize))
  ∧ FlatCache._cache c = CacheableMemory.new (options ≫= FlatCacheOptions.ttl)
  ∧ FlatCache.emitted c = [].
Proof.
  unfold FlatCache.new. cbv zeta. destruct (bool_decide _); [done|].
  unfold FlatCache.startAutoPersist. by destruct (_ <? _).
Qed.

Lemma new_tracker_ok options :
  tracker_ok (FlatCache.new options)
  ∧ FastLRU.capacity (FlatCache._lruCache (FlatCache.new (Value:=Value) options))
    = default 1000%nat (options ≫= FlatCacheOptions.inMemoryLruSize).
Proof.
  unfold tracker_ok. rewrite (proj1 (new_fields options)). split; [|done].
  exists []. split; [apply ChainFacts.new_repr|simpl; lia].
Qed.

Lemma run_tracker_ok calls options fs :
  let c := (FlatCache.run calls (FlatCache.new options, fs)).1 in
  tracker_ok c
  ∧ FastLRU.capacity (FlatCache._lruCache c)
    = default 1000%nat (options ≫= FlatCacheOptions.inMemoryLruSize).
Proof.
  apply (run_invariant (λ w, tracker_ok w.1
    ∧ FastLRU.capacity (FlatCache._lruCache w.1)
      = default 1000%nat (options ≫= FlatCacheOptions.inMemoryLruSize))).
  - apply new_tracker_ok.
  - intros call now [c fs'] [Hok Hcap]. simpl in *.
    destruct (exec_tracker_ok call now c fs' Hok) as [? Hc]. split; [done|].
    etrans; [exact Hc|done].
Qed.


(** *** The memory store *)

Lemma store_get_fst k now (m : CacheableMemory.t Value) :
  (CacheableMemory.get k now m).1
  = CacheableMemory.store m !! k
    ≫= λ ve, if CacheableMemory.hasExpired now ve.2 then None else Some ve.1.
Proof.
  unfold CacheableMemory.get.
  destruct (CacheableMemory.store m !! k) as [[v e]|]; simpl; [|done].
  by destruct (CacheableMemory.hasExpired now e).
Qed.

Lemma store_get_other k k' now (m : CacheableMemory.t Value) :
  k' ≠ k →
  CacheableMemory.store (CacheableMemory.get k now m).2 !! k'
  = CacheableMemory.store m !! k'.
Proof.
  intros Hne. unfold CacheableMemory.get.
  destruct (CacheableMemory.store m !! k) as [[v e]|]; simpl; [|done].
  destruct (CacheableMemory.hasExpired now e); simpl; [|done].
  by rewrite lookup_delete_ne.
Qed.

Lemma get_fst k now c :
  (FlatCache.get k now c).1 = (CacheableMemory.get k now (FlatCache._cache c)).1.
Proof.
  unfold FlatCache.get.
  by destruct (CacheableMemory.get k now (FlatCache._cache c)) as [[v|] m].
Qed.

Lemma get_cache k now c :
  FlatCache._cache (FlatCache.get k now c).2
  = (CacheableMemory.get k now (FlatCache._cache c)).2.
Proof.
  unfold FlatCache.get.
  by destruct (CacheableMemory.get k now (FlatCache._cache c)) as [[v|] m].
Qed.

Lemma set_cache_eq k v ttl now c :
  FlatCache._cache (FlatCache.set k v ttl now c)
  = CacheableMemory.set k v
      (from_option CacheableMemory.Ttl CacheableMemory.NoTtl ttl) now
      (FlatCache._cache c).
Proof.
  unfold FlatCache.set.
  by rewrite (proj1 (proj2 (scheduleBatchWrite_frame _ _))).
Qed.

Lemma elem_of_items now (m : CacheableMemory.t Value) k v e :
  CacheableMemory.mkItem k v e ∈ CacheableMemory.items now m
  ↔ CacheableMemory.store m !! k = Some (v, e)
    ∧ CacheableMemory.hasExpired now e = false.
Proof.
  unfold CacheableMemory.items. rewrite list_elem_of_fmap. split.
  - intros ([k' [v' e']] & [= -> -> ->] & Hin). simpl in *.
    apply list_elem_of_filter in Hin as [Hlive Hin].
    apply elem_of_map_to_list in Hin. split; [done|].
    unfold CacheableMemory.live in Hlive. simpl in Hlive.
    by apply negb_true_iff.
  - intros [Hk He]. exists (k, (v, e)). split; [done|].
    apply list_elem_of_filter. split.
    + unfold CacheableMemory.live. simpl. by rewrite He.
    + by apply elem_of_map_to_list.
Qed.

Lemma keys_items_NoDup now (m : CacheableMemory.t Value) :
  NoDup (CacheableMemory.key <$> CacheableMemory.items now m).
Proof.
  unfold CacheableMemory.items. rewrite <- list_fmap_compose.
  eapply sublist_NoDup; [apply (NoDup_fst_map_to_list (CacheableMemory.store m))|].
  apply fmap_sublist, sublist_filter.
Qed.

Lemma elem_of_keys now (m : CacheableMemory.t Value) k :
  k ∈ CacheableMemory.keys now m
  ↔ ∃ v e, CacheableMemory.store m !! k = Some (v, e)
           ∧ CacheableMemory.hasExpired now e = false.
Proof.
  unfold CacheableMemory.keys. rewrite list_elem_of_fmap. split.
  - intros ([k' v e] & -> & Hin). apply elem_of_items in Hin. eauto.
  - intros (v & e & Hin). exists (CacheableMemory.mkItem k v e).
    split; [done|]. by apply elem_of_items.
Qed.

Lemma replay_ttl now entries (m : CacheableMemory.t Value) :
  CacheableMemory.ttl (FlatCache.replay now entries m) = CacheableMemory.ttl m.
Proof.
  revert m. unfold FlatCache.replay.
  induction entries as [|item entries IH]; intros m; simpl; [done|].
  by rewrite IH.
Qed.



End EngineFacts.
End EngineFacts.

(** ** The properties of the engine *)
Section Claims.
Context {Value : Type} `{!Flatted Value}.
Implicit Types (c : FlatCache.t Value) (fs : Fs.t) (now : Z) (k : string).
Import Invariants EngineFacts.

(** C10: [delete(k)] emits the delete notification with [k] and sets the
    dirty flag whatever the cache holds, so also when [k] is absent from the
    memory store; the snapshot cache is invalidated as well. *)
Theorem delete_always_notifies k c :
  FlatCache.emitted (FlatCache.delete k c) = FlatCache.emitted c ++ [DELETE k]
  ∧ FlatCache._changesSinceLastSave (FlatCache.delete k c) = true
  ∧ FlatCache._serializationCacheValid (FlatCache.delete k c) = false.
Proof. done. Qed.

Lemma has_delete k (l : FastLRU.t) : FastLRU.has k (FastLRU.delete k l) = false.
Proof.
  unfold FastLRU.has, FastLRU.delete. apply bool_decide_eq_false.
  destruct (FastLRU.cache l !! k) as [h|] eqn:Hk.
  - simpl. rewrite lookup_delete_eq. by intros [? ?].
  - rewrite Hk. by intros [? ?].
Qed.

(** C8: after [delete(k)], [get(k)] answers absent, and [k] is neither
    among the memory store's keys nor in the recency tracker (its map and
    its chain), whatever the program did to the cache before. *)
Theorem delete_removes options calls fs k now :
  let c := (FlatCache.run calls (FlatCache.new options, fs)).1 in
  let c' := FlatCache.delete k c in
  (FlatCache.get k now c').1 = None
  ∧ (k ∉ FlatCache.keys now c')
  ∧ FastLRU.has k (FlatCache._lruCache c') = false
  ∧ (k ∉ FastLRU.order (FlatCache._lruCache c'))
  ∧ FastLRU.has k (FlatCache._lruCache (FlatCache.get k now c').2) = false.
Proof.
  intros c c'. split_and!.
  - rewrite get_fst, store_get_fst. simpl. by rewrite lookup_delete_eq.
  - unfold FlatCache.keys. rewrite elem_of_keys. simpl.
    rewrite lookup_delete_eq. by intros (? & ? & ? & _).
  - apply has_delete.
  - pose proof (run_tracker_ok calls options fs) as Hok. cbv zeta in Hok.
    destruct Hok as [(l & Hr & _) _].
    destruct (ChainFacts.delete_repr _ _ k Hr) as (l' & Hr' & Hk & _).
    subst c c'. simpl. rewrite (ChainFacts.repr_order _ _ Hr'), Hk.
    rewrite list_elem_of_filter. by intros [? _].
  - unfold FlatCache.get. simpl.
    unfold CacheableMemory.get. simpl. rewrite lookup_delete_eq. simpl.
    apply has_delete.
Qed.

(** C4, as the code has it: [loadFile] on a path that does not exist
    returns without an exception and without a notification and leaves the
    instance as it was; it is [loadFileStream] that reports the missing
    file, by the error notification and the [onError] callback, and it
    leaves the contents alone too. *)
Theorem loadFile_missing_is_silent p now c fs :
  Fs.existsSync p fs = false →
  FlatCache.loadFile p now c fs = (c, None)
  ∧ ∀ withOnError chunk,
      FlatCache.loadFileStream p withOnError chunk now c fs
      = (FlatCache.emit (ERROR (ErrMissing p)) c,
         if withOnError then [FlatCache.onError (ErrMissing p)] else [],
         None)
      ∧ FlatCache._cache (FlatCache.loadFileStream p withOnError chunk now c fs).1.1
        = FlatCache._cache c.
Proof.
  intros Hp. unfold FlatCache.loadFile, FlatCache.loadFileStream.
  rewrite Hp. done.
Qed.


(** The body of [save], when it throws, has emitted nothing, has left the
    dirty flag and the files alone, and was run because the cache was dirty
    or the save forced. *)
Lemma save_try_throws force now c fs e :
  (FlatCache.save_try force now c fs).2 = Some e →
  let r := (FlatCache.save_try force now c fs).1 in
  FlatCache.emitted r.1 = FlatCache.emitted c
  ∧ FlatCache._changesSinceLastSave r.1 = FlatCache._changesSinceLastSave c
  ∧ FlatCache._changesSinceLastSave c || force = true
  ∧ Fs.files r.2 = Fs.files fs.
Proof.
  unfold FlatCache.save_try.
  destruct (FlatCache._changesSinceLastSave c || force) eqn:Hrun; [|done].
  pose proof (flushPendingWrites_frame c) as Hf. simpl in Hf.
  pose proof (snapshot_frame
    (CacheableMemory.items now (FlatCache._cache (FlatCache.flushPendingWrites c)))
    (FlatCache.flushPendingWrites c)) as Hs. simpl in Hs.
  destruct (FlatCache.snapshot _ _) as [data c2]. simpl in Hs.
  destruct Hf as (_ & _ & Hd1 & _ & _ & He1 & _).
  destruct Hs as (_ & _ & Hd2 & He2 & _).
  unfold Fs.mkdirSync, Fs.writeFileSync.
  repeat case_match; simplify_eq/=; intros [= <-];
    (split_and!; [congruence|congruence|done|done]).
Qed.


(** A [save] that has to write to a path on which writes are refused fails
    in the way C6 is about. *)
Lemma save_try_denied force now c fs :
  FlatCache._changesSinceLastSave c || force = true →
  FlatCache.cacheFilePath c ∈ Fs.denied fs →
  is_Some (FlatCache.save_try force now c fs).2.
Proof.
  intros Hrun Hden. unfold FlatCache.save_try. rewrite Hrun.
  pose proof (flushPendingWrites_frame c) as Hf. simpl in Hf.
  pose proof (snapshot_frame
    (CacheableMemory.items now (FlatCache._cache (FlatCache.flushPendingWrites c)))
    (FlatCache.flushPendingWrites c)) as Hs. simpl in Hs.
  destruct (FlatCache.snapshot _ _) as [data c2]. simpl in Hs.
  assert (Hpath : FlatCache.cacheFilePath (FlatCache.flushPendingWrites c)
                  = FlatCache.cacheFilePath c).
  { unfold FlatCache.cacheFilePath. destruct Hf as (_&_&_&_&_&_&->&->&_). done. }
  rewrite Hpath. unfold Fs.writeFileSync, Fs.mkdirSync.
  repeat case_match; simplify_eq/=; eauto.
  all: exfalso; rewrite bool_decide_eq_true_2 in * by done; done.
Qed.



Lemma touch_distinct cap (ks : list string) :
  NoDup ks →
  ∃ l, Chain.repr (foldl (λ t k, FastLRU.touch k t) (FastLRU.new cap) ks) l
       ∧ l.*2 = take cap (reverse ks)
       ∧ FastLRU.capacity (foldl (λ t k, FastLRU.touch k t) (FastLRU.new cap) ks) = cap.
Proof.
  induction ks as [|k ks IH] using rev_ind; intros Hnd.
  - exists []. split_and!; [apply ChainFacts.new_repr| |done].
    by destruct cap.
  - apply NoDup_app in Hnd as (Hnd & Hk & _).
    destruct (IH Hnd) as (l & Hr & Hl & Hcap).
    rewrite foldl_snoc.
    destruct (ChainFacts.touch_repr _ _ k Hr) as (l' & Hr' & Hl' & Hcap').
    exists l'. split_and!; [done| |congruence].
    rewrite Hl', Hcap. rewrite ChainFacts.touch_keys_take.
    + rewrite Hl, reverse_snoc.
      rewrite ChainFacts.filter_ne_absent.
      * destruct cap; [done|]. simpl. f_equal. rewrite take_take. f_equal. lia.
      * intros Hin%subseteq_take. rewrite elem_of_reverse in Hin.
        apply (Hk k Hin). left.
    + apply Hr.
    + rewrite length_fmap. rewrite <- (length_fmap snd), Hl.
      rewrite length_take. lia.
Qed.

(** C7: the recency tracker of a running cache never holds more keys than
    its configured capacity.  A touch puts the key first and keeps the
    [capacity] most recently touched keys, so that what leaves the tracker
    is exactly the least recently touched keys beyond the capacity; touching
    distinct keys on a new tracker leaves the last [capacity] of them.  The
    calls that touch the tracker change no other key's entry in the memory
    store, and [get] answers the value of an entry of the memory store that
    has not expired whether the tracker holds its key or not. *)
Theorem tracker_bounded_and_advisory options calls fs :
  let c := (FlatCache.run calls (FlatCache.new options, fs)).1 in
  let lru := FlatCache._lruCache c in
  let cap := default 1000%nat (options ≫= FlatCacheOptions.inMemoryLruSize) in
  FastLRU.capacity lru = cap
  ∧ (size (FastLRU.cache lru) ≤ cap)%nat
  ∧ (length (FastLRU.order lru) ≤ cap)%nat
  ∧ (∀ k, FastLRU.has k lru = true ↔ k ∈ FastLRU.order lru)
  ∧ (∀ k, FastLRU.order (FastLRU.touch k lru)
          = take cap (k :: filter (λ x, x ≠ k) (FastLRU.order lru)))
  ∧ (∀ n ks, NoDup ks →
       FastLRU.order (foldl (λ t k, FastLRU.touch k t) (FastLRU.new n) ks)
       = take n (reverse ks))
  ∧ (∀ k v ttl now k', k' ≠ k →
       CacheableMemory.store (FlatCache._cache (FlatCache.set k v ttl now c)) !! k'
       = CacheableMemory.store (FlatCache._cache c) !! k')
  ∧ (∀ k now k', k' ≠ k →
       CacheableMemory.store (FlatCache._cache (FlatCache.get k now c).2) !! k'
       = CacheableMemory.store (FlatCache._cache c) !! k')
  ∧ (∀ k v e now,
       CacheableMemory.store (FlatCache._cache c) !! k = Some (v, e) →
       CacheableMemory.hasExpired now e = false →
       (FlatCache.get k now c).1 = Some v).
Proof.
  intros c lru cap.
  pose proof (run_tracker_ok calls options fs) as Hok. cbv zeta in Hok.
  destruct Hok as [(l & Hr & Hlen) Hcap].
  change (FastLRU.capacity lru = cap) in Hcap.
  change (length l ≤ FastLRU.capacity lru)%nat in Hlen.
  change (Chain.repr lru l) in Hr. rewrite Hcap in Hlen.
  pose proof (ChainFacts.repr_order _ _ Hr) as Hord.
  split_and!.
  - done.
  - by rewrite (ChainFacts.repr_size _ _ Hr).
  - by rewrite Hord, length_fmap.
  - intros k. rewrite Hord. by apply ChainFacts.repr_has.
  - intros k. destruct (ChainFacts.touch_repr _ _ k Hr) as (l' & Hr' & Hl' & _).
    rewrite (ChainFacts.repr_order _ _ Hr'), Hl', Hord, Hcap.
    apply ChainFacts.touch_keys_take; [apply Hr|by rewrite length_fmap].
  - intros n ks Hnd. destruct (touch_distinct n ks Hnd) as (l' & Hr' & Hl' & _).
    by rewrite (ChainFacts.repr_order _ _ Hr').
  - intros k v ttl now k' Hne. rewrite set_cache_eq. simpl.
    by rewrite lookup_insert_ne.
  - intros k now k' Hne. rewrite get_cache. by apply store_get_other.
  - intros k v e now Hk He. rewrite get_fst, store_get_fst, Hk. simpl.
    by rewrite He.
Qed.


(** *** Save, then load into a fresh instance *)



Lemma save_writes now c fs :
  FlatCache._changesSinceLastSave c = true →
  FlatCache._serializationCacheValid c = false →
  (FlatCache.save_try false now c fs).2 = None →
  let w := FlatCache.save false now c fs in
  Fs.files w.2 !! FlatCache.cacheFilePath c
  = Some (FlatCache._stringify c (FlatCache.items now c))
  ∧ FlatCache._cache w.1 = FlatCache._cache c.
Proof.
  intros Hd Hv. unfold FlatCache.save, FlatCache.save_try. rewrite Hd. simpl.
  pose proof (flushPendingWrites_frame c) as Hf. simpl in Hf.
  destruct Hf as (_ & Hc & _ & Hv' & _ & _ & Hdir & Hid & Hstr & _).
  unfold FlatCache.snapshot. rewrite Hv', Hv. simpl.
  unfold FlatCache.cacheFilePath, FlatCache.items. rewrite Hdir, Hid, Hstr, Hc.
  unfold Fs.mkdirSync, Fs.writeFileSync.
  repeat case_match; simplify_eq/=; try done; intros _;
    (split; [apply lookup_insert_eq|done]).
Qed.

Lemma not_expired_earlier e ts t :
  ts ≤ t → CacheableMemory.hasExpired t e = false →
  CacheableMemory.hasExpired ts e = false.
Proof.
  unfold CacheableMemory.hasExpired. destruct e as [x|]; [|done].
  rewrite !Z.ltb_ge. lia.
Qed.




(** *** The write coalescer *)

(** While the timer is armed a [set] only records the key. *)
Lemma set_while_scheduled k v ttl now c due :
  FlatCache._batchWriteTimer c = Some due →
  FlatCache._pendingWrites (FlatCache.set k v ttl now c)
  = <[k := v]> (FlatCache._pendingWrites c)
  ∧ FlatCache._batchWriteTimer (FlatCache.set k v ttl now c) = Some due.
Proof.
  intros Ht. unfold FlatCache.set, FlatCache.scheduleBatchWrite. simpl.
  by rewrite Ht.
Qed.

Lemma save_pending force now c fs :
  let c' := (FlatCache.save force now c fs).1 in
  (FlatCache._pendingWrites c' = FlatCache._pendingWrites c
   ∧ FlatCache._batchWriteTimer c' = FlatCache._batchWriteTimer c)
  ∨ (FlatCache._pendingWrites c' = ∅ ∧ FlatCache._batchWriteTimer c' = None).
Proof.
  unfold FlatCache.save, FlatCache.save_try.
  destruct (_ || _); [|by left]. right.
  pose proof (flushPendingWrites_frame c) as Hf. simpl in Hf.
  pose proof (snapshot_frame
    (CacheableMemory.items now (FlatCache._cache (FlatCache.flushPendingWrites c)))
    (FlatCache.flushPendingWrites c)) as Hs. simpl in Hs.
  destruct (FlatCache.snapshot _ _) as [data c2]. simpl in Hs.
  destruct Hf as (_&_&_&_&_&_&_&_&_& Ht & Hp).
  destruct Hs as (_&_&_&_&_&_& Ht' & Hp').
  repeat case_match; simplify_eq/=; split; congruence.
Qed.

Lemma exec_pending_ok call now c fs :
  pending_ok c → pending_ok (FlatCache.exec call now (c, fs)).1.
Proof.
  unfold pending_ok. intros Hok. destruct call; simpl.
  - destruct (FlatCache._batchWriteTimer c) as [due|] eqn:Ht.
    + destruct (set_while_scheduled k v ttl now c due Ht) as [_ ->]. done.
    + unfold FlatCache.set, FlatCache.scheduleBatchWrite. simpl. rewrite Ht.
      case_bool_decide; [|done]. intros _. apply flushPendingWrites_frame.
  - unfold FlatCache.get.
    by destruct (CacheableMemory.get k now (FlatCache._cache c)) as [[v|] m].
  - intros Ht. rewrite (Hok Ht). apply delete_empty.
  - unfold FlatCache.clear.
    match goal with |- context [FlatCache.save ?f ?n ?x ?y] =>
      pose proof (save_pending f n x y) as Hs; destruct (FlatCache.save f n x y) end.
    simpl in *. by destruct Hs as [[-> _]|[-> _]].
  - pose proof (save_pending force now c fs) as Hs. simpl in Hs.
    destruct Hs as [[-> ->]|[-> _]]; done.
  - unfold FlatCache.load.
    match goal with |- context [FlatCache.loadFile ?p ?n ?x ?y] =>
      pose proof (loadFile_frame p n x y) as Hs; destruct (FlatCache.loadFile p n x y) as [? []] end;
    simpl in *; by destruct Hs as (_ & -> & -> & _).
  - pose proof (loadFile_frame pathToFile now c fs) as Hs. simpl in Hs.
    by destruct Hs as (_ & -> & -> & _).
  - unfold FlatCache.loadFileStream. repeat case_match; done.
  - unfold FlatCache.removeCacheFile. repeat case_match; simplify_eq/=; done.
  - unfold FlatCache.destroy.
    match goal with |- context [FlatCache.flushPendingWrites ?x] =>
      pose proof (flushPendingWrites_frame x) as Hs end.
    simpl in Hs. destruct Hs as (_&_&_&_&_&_&_&_&_& _ & Hp).
    unfold FlatCache.stopAutoPersist. repeat case_match; simpl; by rewrite Hp.
  - unfold FlatCache.startAutoPersist. by case_match.
  - unfold FlatCache.stopAutoPersist. by case_match.
  - unfold FlatCache.batchWriteTimer_fires.
    destruct (FlatCache._batchWriteTimer c) eqn:Ht; intros _.
    + apply flushPendingWrites_frame.
    + by apply Hok.
  - unfold FlatCache.persistTimer_fires.
    destruct (FlatCache._persistTimer c); [|done].
    pose proof (save_pending false now c fs) as Hs. simpl in Hs.
    destruct Hs as [[-> ->]|[-> _]]; done.
  - done.
  - done.
  - done.
Qed.

Lemma run_pending_ok calls options fs :
  pending_ok (FlatCache.run calls (FlatCache.new (Value:=Value) options, fs)).1.
Proof.
  apply (run_invariant (λ w, pending_ok w.1)).
  - unfold pending_ok, FlatCache.new, FlatCache.startAutoPersist.
    destruct (bool_decide _); [done|]. by destruct (_ <? _).
  - intros call now [c fs']. apply exec_pending_ok.
Qed.

(** In a running cache a [set] flushes at once only when the threshold is
    at most one: the size test is reached with no timer armed, that is with
    an empty pending-write set. *)
Lemma immediate_flush_threshold calls options fs k v ttl now :
  let c := (FlatCache.run calls (FlatCache.new options, fs)).1 in
  FlatCache._batchWriteTimer (FlatCache.set k v ttl now c) = None →
  (FlatCache._batchWriteSize c ≤ 1)%nat.
Proof.
  intros c. pose proof (run_pending_ok calls options fs) as Hok. fold c in Hok.
  destruct (FlatCache._batchWriteTimer c) as [due|] eqn:Ht.
  - by destruct (set_while_scheduled k v ttl now c due Ht) as [_ ->].
  - unfold FlatCache.set, FlatCache.scheduleBatchWrite. simpl.
    rewrite Ht, (Hok Ht). case_bool_decide as Hsz; [|done]. intros _.
    by rewrite insert_empty, map_size_singleton in Hsz.
Qed.

(** *** Further properties of the facade *)

(** X1: after [set(k, v)], [get(k)] answers [v] as long as the entry has not
    expired, and absent once it has. *)
Theorem set_then_get k v ttl now t c :
  (FlatCache.get k t (FlatCache.set k v ttl now c)).1
  = if CacheableMemory.hasExpired t
         (CacheableMemory.expiry now
            (from_option CacheableMemory.Ttl CacheableMemory.NoTtl ttl)
            (FlatCache._cache c))
    then None else Some v.
Proof.
  rewrite get_fst, store_get_fst, set_cache_eq. simpl.
  by rewrite lookup_insert_eq.
Qed.

(** X2: [clear()] leaves no key; it saves, so that either the cache file
    holds the encoding of no entries and the cache is clean, or the error of
    the failed save has been notified and the cache is dirty; the clear
    notification comes last. *)
Theorem clear_empties now t c fs :
  let w := FlatCache.clear now c fs in
  FlatCache.keys t w.1 = []
  ∧ FastLRU.order (FlatCache._lruCache w.1) = []
  ∧ ((Fs.files w.2 !! FlatCache.cacheFilePath c = Some (FlatCache._stringify c [])
      ∧ FlatCache._changesSinceLastSave w.1 = false
      ∧ FlatCache.emitted w.1 = FlatCache.emitted c ++ [SAVE; CLEAR])
     ∨ (∃ e, FlatCache.emitted w.1 = FlatCache.emitted c ++ [ERROR e; CLEAR]
             ∧ FlatCache._changesSinceLastSave w.1 = true
             ∧ Fs.files w.2 = Fs.files fs)).
Proof.
  unfold FlatCache.clear.
  set (c5 := FlatCache.set_pendingWrites _ _).
  pose proof (save_frame false now c5 fs) as Hfr. simpl in Hfr.
  destruct Hfr as (Hlru & Hcache & _).
  assert (Hitems : ∀ t', CacheableMemory.items t' (FlatCache._cache c5) = []).
  { intros t'. unfold CacheableMemory.items. subst c5. simpl.
    by rewrite map_to_list_empty. }
  destruct (FlatCache.save_try false now c5 fs) as [[c6 fs6] o] eqn:Htry.
  destruct o as [e|].
  - pose proof (save_try_throws false now c5 fs e) as Hfail.
    rewrite Htry in Hfail. specialize (Hfail eq_refl). cbv zeta in Hfail.
    simpl in Hfail. destruct Hfail as (Hemit & Hdirty & _ & Hfiles).
    unfold FlatCache.save in *. rewrite Htry in *. cbv zeta. simpl in *.
    split_and!.
    + unfold FlatCache.keys, CacheableMemory.keys. simpl.
      by rewrite Hcache, Hitems.
    + simpl. by rewrite Hlru.
    + right. exists e. rewrite Hemit. split_and!; [by rewrite <- app_assoc|done|done].
  - assert (Hok : (FlatCache.save_try false now c5 fs).2 = None) by (by rewrite Htry).
    pose proof (save_writes now c5 fs eq_refl eq_refl Hok) as Hw. cbv zeta in Hw.
    destruct Hw as [Hfile _]. unfold FlatCache.items in Hfile. rewrite Hitems in Hfile.
    assert (Hd : FlatCache._changesSinceLastSave (FlatCache.save false now c5 fs).1 = false
                 ∧ FlatCache.emitted (FlatCache.save false now c5 fs).1
                   = FlatCache.emitted c ++ [SAVE]).
    { unfold FlatCache.save. revert Htry. unfold FlatCache.save_try.
      change (FlatCache._changesSinceLastSave c5) with true. simpl orb. cbv iota.
      pose proof (flushPendingWrites_frame c5) as Hf. simpl in Hf.
      pose proof (snapshot_frame
        (CacheableMemory.items now (FlatCache._cache (FlatCache.flushPendingWrites c5)))
        (FlatCache.flushPendingWrites c5)) as Hs. simpl in Hs.
      destruct (FlatCache.snapshot _ _) as [data c2]. simpl in Hs.
      destruct Hf as (_&_&_&_&_& He1 &_). destruct Hs as (_&_&_& He2 &_).
      repeat case_match; simplify_eq/=; intros; simplify_eq/=;
        (split; [done|congruence]). }
    destruct (FlatCache.save false now c5 fs) as [c7 fs7]. cbv zeta. simpl in *.
    split_and!.
    + unfold FlatCache.keys, CacheableMemory.keys. simpl.
      by rewrite Hcache, Hitems.
    + simpl. by rewrite Hlru.
    + left. destruct Hd as [Hd He]. rewrite He, <- app_assoc. done.
Qed.


(** X4: in a running cache the pending-write set is empty whenever no batch
    timer is armed, and neither a mutation nor a flush of the coalescer
    touches the file system. *)
Theorem coalescer_bookkeeping options calls fs :
  let w := FlatCache.run calls (FlatCache.new options, fs) in
  (FlatCache._batchWriteTimer w.1 = None → FlatCache._pendingWrites w.1 = ∅)
  ∧ (∀ k v ttl now, (FlatCache.exec (FlatCache.CallSet k v ttl) now w).2 = w.2)
  ∧ (∀ k now, (FlatCache.exec (FlatCache.CallDelete k) now w).2 = w.2)
  ∧ (∀ now, (FlatCache.exec FlatCache.BatchWriteTimerFires now w).2 = w.2)
  ∧ FlatCache._pendingWrites (FlatCache.flushPendingWrites w.1) = ∅
  ∧ FlatCache._batchWriteTimer (FlatCache.flushPendingWrites w.1) = None.
Proof.
  intros w. pose proof (run_pending_ok calls options fs) as Hok.
  pose proof (flushPendingWrites_frame w.1) as Hf. simpl in Hf.
  destruct Hf as (_&_&_&_&_&_&_&_&_& Ht & Hp).
  fold w in Hok. destruct w as [c fs']. by split_and!.
Qed.

(** X5: [load] of a cache file that does not exist changes nothing but the
    notifications, to which it adds the load notification. *)
Theorem load_missing cacheId cacheDir now c fs :
  Fs.existsSync
    (Fs.resolve (default (FlatCache._cacheDir c) cacheDir +:+ "/"
                 +:+ default (FlatCache._cacheId c) cacheId)) fs = false →
  FlatCache.load cacheId cacheDir now c fs = FlatCache.emit LOAD c.
Proof.
  intros Hp. unfold FlatCache.load, FlatCache.loadFile. by rewrite Hp.
Qed.


End Claims.

(** ** Further properties: listings, loading, the files on disk *)
Section Further.
Context {Value : Type} `{!Flatted Value}.
Implicit Types (c : FlatCache.t Value) (fs : Fs.t) (now : Z) (k : string).
Import Invariants EngineFacts.

Lemma all_fold_other (entries : list (Item Value)) (acc : gmap string Value) k :
  k ∉ CacheableMemory.key <$> entries →
  foldl (λ r item, <[CacheableMemory.key item := CacheableMemory.value item]> r)
        acc entries !! k = acc !! k.
Proof.
  revert acc. induction entries as [|item entries IH]; intros acc Hk; simpl; [done|].
  rewrite fmap_cons in Hk. apply not_elem_of_cons in Hk as [Hne Hk].
  rewrite IH by done. by rewrite lookup_insert_ne.
Qed.

Lemma all_fold_entry (entries : list (Item Value)) (acc : gmap string Value) k v e :
  NoDup (CacheableMemory.key <$> entries) →
  CacheableMemory.mkItem k v e ∈ entries →
  foldl (λ r item, <[CacheableMemory.key item := CacheableMemory.value item]> r)
        acc entries !! k = Some v.
Proof.
  revert acc. induction entries as [|item entries IH]; intros acc Hnd Hin.
  { by apply elem_of_nil in Hin. }
  rewrite fmap_cons in Hnd. apply NoDup_cons in Hnd as [Hfirst Hnd].
  apply elem_of_cons in Hin as [<-|Hin]; simpl.
  - rewrite all_fold_other by done. by rewrite lookup_insert_eq.
  - by apply IH.
Qed.

(** X7: the listings agree with [get].  [all()] maps a key to the value
    [get] answers for it and holds no other key; [keys()] lists every key
    [get] answers for, each once; every entry of [items] has the key, the
    value and the expiry the store holds for it. *)
Theorem listings_agree_with_get now c :
  (∀ k, FlatCache.all now c !! k = (FlatCache.get k now c).1)
  ∧ NoDup (FlatCache.keys now c)
  ∧ (∀ k, k ∈ FlatCache.keys now c ↔ is_Some (FlatCache.get k now c).1)
  ∧ (∀ k v e, CacheableMemory.mkItem k v e ∈ FlatCache.items now c ↔
       CacheableMemory.store (FlatCache._cache c) !! k = Some (v, e)
       ∧ (FlatCache.get k now c).1 = Some v).
Proof.
  assert (Hget : ∀ k, (FlatCache.get k now c).1
    = CacheableMemory.store (FlatCache._cache c) !! k
      ≫= λ ve, if CacheableMemory.hasExpired now ve.2 then None else Some ve.1).
  { intros k. by rewrite get_fst, store_get_fst. }
  split_and!.
  - intros k. rewrite Hget. unfold FlatCache.all.
    destruct (CacheableMemory.store (FlatCache._cache c) !! k) as [[v e]|] eqn:Hk; simpl.
    + destruct (CacheableMemory.hasExpired now e) eqn:He.
      * rewrite all_fold_other; [apply lookup_empty|].
        intros Hin. apply (elem_of_keys now (FlatCache._cache c) k) in Hin
          as (v' & e' & Hk' & He'). congruence.
      * eapply all_fold_entry; [apply keys_items_NoDup|].
        by apply elem_of_items.
    + rewrite all_fold_other; [apply lookup_empty|].
      intros Hin. apply (elem_of_keys now (FlatCache._cache c) k) in Hin
        as (v' & e' & Hk' & He'). congruence.
  - apply keys_items_NoDup.
  - intros k. unfold FlatCache.keys. rewrite elem_of_keys, Hget. split.
    + intros (v & e & -> & He). simpl. rewrite He. eauto.
    + destruct (CacheableMemory.store (FlatCache._cache c) !! k) as [[v e]|]; simpl.
      * destruct (CacheableMemory.hasExpired now e) eqn:He; [by intros [? ?]|eauto].
      * by intros [? ?].
  - intros k v e. unfold FlatCache.items. rewrite elem_of_items, Hget. split.
    + intros [-> He]. simpl. by rewrite He.
    + intros [-> Hv]. simpl in Hv. split; [done|].
      by destruct (CacheableMemory.hasExpired now e).
Qed.


(** X8: [load] never throws and emits exactly one notification.  It is the
    error notification exactly when the file exists but cannot be read or
    decoded, and then the instance is otherwise as before; else it is the
    load notification.  In no case are the tracker, the pending writes, the
    snapshot cache or the timers touched, and the dirty flag is set only
    when entries were replayed. *)
Theorem load_outcomes cacheId cacheDir now c fs :
  let p := Fs.resolve (default (FlatCache._cacheDir c) cacheDir +:+ "/"
                       +:+ default (FlatCache._cacheId c) cacheId) in
  let c' := FlatCache.load cacheId cacheDir now c fs in
  match (FlatCache.loadFile p now c fs).2 with
  | Some e =>
    c' = FlatCache.emit (ERROR e) c
    ∧ Fs.existsSync p fs = true
    ∧ (Fs.files fs !! p = None
       ∨ ∃ text, Fs.files fs !! p = Some text ∧ FlatCache._parse c text = None)
  | None =>
    FlatCache.emitted c' = FlatCache.emitted c ++ [LOAD]
    ∧ (Fs.existsSync p fs = false → c' = FlatCache.emit LOAD c)
    ∧ (∀ text entries,
         Fs.files fs !! p = Some text → FlatCache._parse c text = Some entries →
         FlatCache._cache c' = FlatCache.replay now entries (FlatCache._cache c)
         ∧ FlatCache._changesSinceLastSave c' = true)
  end
  ∧ FlatCache._lruCache c' = FlatCache._lruCache c
  ∧ FlatCache._pendingWrites c' = FlatCache._pendingWrites c
  ∧ FlatCache._serializationCacheValid c' = FlatCache._serializationCacheValid c
  ∧ FlatCache._batchWriteTimer c' = FlatCache._batchWriteTimer c.
Proof.
  intros p c'. subst c'. unfold FlatCache.load. fold p.
  unfold FlatCache.loadFile, Fs.readFileSync, Fs.existsSync.
  destruct (Fs.files fs !! p) as [text|] eqn:Hfile; simpl.
  - destruct (FlatCache._parse c text) as [entries|] eqn:Hparse; simpl.
    + split_and!; try done. intros text' entries' [= <-] Hp'.
      rewrite Hparse in Hp'. by injection Hp' as <-.
    + split_and!; try done. right. eauto.
  - destruct (bool_decide (p ∈ Fs.dirs fs)) eqn:Hdir; simpl.
    + split_and!; try done. by left.
    + by split_and!.
Qed.


(** X10: [removeCacheFile] answers true exactly when the cache file is a
    regular file the disk lets go; then that file and nothing else is
    removed.  When it answers false the disk is as before, and the instance
    has been told of an error exactly when the path exists but could not be
    removed.  Directories are never removed. *)
Theorem removeCacheFile_spec c fs :
  let p := FlatCache.cacheFilePath c in
  let r := FlatCache.removeCacheFile c fs in
  (r.1.1 = true ↔ is_Some (Fs.files fs !! p) ∧ p ∉ Fs.denied fs)
  ∧ (r.1.1 = true →
       r.1.2 = c ∧ Fs.files r.2 = base.delete p (Fs.files fs))
  ∧ (r.1.1 = false →
       r.2 = fs
       ∧ (Fs.existsSync p fs = false → r.1.2 = c)
       ∧ (Fs.existsSync p fs = true →
            ∃ e, r.1.2 = FlatCache.emit (ERROR e) c))
  ∧ Fs.dirs r.2 = Fs.dirs fs.
Proof.
  intros p r. subst r. unfold FlatCache.removeCacheFile. fold p.
  unfold Fs.existsSync, Fs.rmSync.
  destruct (Fs.files fs !! p) as [text|] eqn:Hfile; simpl;
    repeat (case_bool_decide; simpl); split_and!; try done;
    try (intros _; split_and!; by eauto);
    (split; [try done|]; rewrite ?is_Some_alt; intuition (eauto; congruence)).
Qed.


(** *** What the tracker and the memory store hold *)

Lemma cache_removeNode h (l : FastLRU.t) :
  FastLRU.cache (FastLRU.removeNode h l) = FastLRU.cache l.
Proof. unfold FastLRU.removeNode. by repeat case_match. Qed.

Lemma cache_addToFront h (l : FastLRU.t) :
  FastLRU.cache (FastLRU.addToFront h l) = FastLRU.cache l.
Proof. unfold FastLRU.addToFront. by repeat case_match. Qed.

Lemma has_touch_inv k k' (l : FastLRU.t) :
  FastLRU.has k' (FastLRU.touch k l) = true →
  k' = k ∨ FastLRU.has k' l = true.
Proof.
  unfold FastLRU.has. rewrite !bool_decide_eq_true. unfold FastLRU.touch.
  destruct (FastLRU.cache l !! k) as [h|] eqn:Hk.
  - unfold FastLRU.moveToFront. case_bool_decide; [by right|].
    rewrite cache_addToFront, cache_removeNode. by right.
  - case_bool_decide.
    + unfold FastLRU.removeLRU. repeat case_match;
        rewrite ?cache_removeNode, ?cache_addToFront; simpl;
        rewrite ?cache_addToFront; simpl; intros [x Hx].
      * destruct (decide (k' = k)) as [->|Hne]; [by left|right].
        apply lookup_delete_Some in Hx as [_ Hx].
        rewrite lookup_insert_ne in Hx by done. eauto.
      * destruct (decide (k' = k)) as [->|Hne]; [by left|right].
        rewrite lookup_insert_ne in Hx by done. eauto.
      * destruct (decide (k' = k)) as [->|Hne]; [by left|right].
        rewrite lookup_insert_ne in Hx by done. eauto.
    + rewrite cache_addToFront. simpl. intros [x Hx].
      destruct (decide (k' = k)) as [->|Hne]; [by left|right].
      rewrite lookup_insert_ne in Hx by done. eauto.
Qed.

Lemma has_delete_inv k k' (l : FastLRU.t) :
  FastLRU.has k' (FastLRU.delete k l) = true →
  k' ≠ k ∧ FastLRU.has k' l = true.
Proof.
  unfold FastLRU.has. rewrite !bool_decide_eq_true. unfold FastLRU.delete.
  destruct (FastLRU.cache l !! k) as [h|] eqn:Hk.
  - simpl. rewrite cache_removeNode. intros [x Hx].
    apply lookup_delete_Some in Hx as [Hne Hx]. eauto.
  - intros [x Hx]. split; [|eauto]. intros ->. congruence.
Qed.

(** X11: the keys of the tracker, whatever state it is in: [touch(k)] adds
    no key but [k], [delete(k)] takes out [k] and no other key, and after
    [clear()] no key is left. *)
Theorem tracker_keys k k' (l : FastLRU.t) :
  (FastLRU.has k' (FastLRU.touch k l) = true →
   k' = k ∨ FastLRU.has k' l = true)
  ∧ (FastLRU.has k' (FastLRU.delete k l) = true ↔
     k' ≠ k ∧ FastLRU.has k' l = true)
  ∧ FastLRU.has k' (FastLRU.clear l) = false.
Proof.
  split_and!.
  - apply has_touch_inv.
  - split; [apply has_delete_inv|]. intros [Hne Hk'].
    revert Hk'. unfold FastLRU.has. rewrite !bool_decide_eq_true.
    unfold FastLRU.delete. destruct (FastLRU.cache l !! k); [|done].
    simpl. rewrite cache_removeNode. intros [x Hx]. exists x.
    by rewrite lookup_delete_ne.
  - unfold FastLRU.has. simpl. apply bool_decide_eq_false.
    rewrite lookup_empty. by intros [? ?].
Qed.

(** *** Saving *)


(** *** The auto-persist timer *)

Lemma flush_persistTimer c :
  FlatCache._persistTimer (FlatCache.flushPendingWrites c)
  = FlatCache._persistTimer c
  ∧ FlatCache._persistInterval (FlatCache.flushPendingWrites c)
    = FlatCache._persistInterval c.
Proof.
  unfold FlatCache.flushPendingWrites.
  destruct (FlatCache._batchWriteTimer c); simpl; by case_bool_decide.
Qed.

Lemma snapshot_persistTimer entries c :
  FlatCache._persistTimer (FlatCache.snapshot entries c).2
  = FlatCache._persistTimer c.
Proof.
  unfold FlatCache.snapshot.
  destruct (FlatCache._serializationCacheValid c),
    (FlatCache._serializationCache c) as [text|]; simpl; try done.
  by destruct (FlatCache.truthy text).
Qed.

Lemma save_persistTimer force now c fs :
  FlatCache._persistTimer (FlatCache.save force now c fs).1
  = FlatCache._persistTimer c.
Proof.
  unfold FlatCache.save, FlatCache.save_try.
  destruct (_ || _); [|done].
  pose proof (snapshot_persistTimer
    (CacheableMemory.items now (FlatCache._cache (FlatCache.flushPendingWrites c)))
    (FlatCache.flushPendingWrites c)) as Hs.
  rewrite (proj1 (flush_persistTimer c)) in Hs.
  destruct (FlatCache.snapshot _ _) as [data c2]. simpl in Hs.
  repeat case_match; simplify_eq/=; done.
Qed.

Lemma set_keeps_persistTimer k v ttl now c :
  FlatCache._persistTimer (FlatCache.set k v ttl now c)
  = FlatCache._persistTimer c.
Proof.
  unfold FlatCache.set, FlatCache.scheduleBatchWrite. simpl.
  destruct (FlatCache._batchWriteTimer c); [done|].
  case_bool_decide; [|done].
  by rewrite (proj1 (flush_persistTimer _)).
Qed.

Lemma exec_persistTimer (call : FlatCache.Call Value) now c fs :
  call ≠ FlatCache.CallStartAutoPersist →
  call ≠ FlatCache.CallStopAutoPersist →
  (∀ d, call ≠ FlatCache.CallDestroy d) →
  FlatCache._persistTimer (FlatCache.exec call now (c, fs)).1
  = FlatCache._persistTimer c.
Proof.
  intros Hstart Hstop Hdestroy. destruct call; simpl; try done.
  - apply set_keeps_persistTimer.
  - unfold FlatCache.get. destruct (CacheableMemory.get _ _ _) as [[?|] ?]; done.
  - unfold FlatCache.clear.
    pose proof (save_persistTimer false now
      (FlatCache.set_pendingWrites ∅
        (FlatCache.set_serializationCacheValid false
          (FlatCache.set_changesSinceLastSave true
            (FlatCache.set_lruCache (FastLRU.clear (FlatCache._lruCache c))
              (FlatCache.set_cache (CacheableMemory.clear (FlatCache._cache c)) c)))))
      fs) as Hs.
    simpl in *. destruct (FlatCache.save _ _ _ _) as [c6 fs']. done.
  - apply save_persistTimer.
  - unfold FlatCache.load, FlatCache.loadFile. repeat case_match; simplify_eq/=; done.
  - unfold FlatCache.loadFile. repeat case_match; simplify_eq/=; done.
  - unfold FlatCache.loadFileStream. repeat case_match; simplify_eq/=; done.
  - unfold FlatCache.removeCacheFile. repeat case_match; simplify_eq/=; done.
  - by destruct (Hdestroy includeCacheDirectory).
  - unfold FlatCache.batchWriteTimer_fires.
    destruct (FlatCache._batchWriteTimer c); [|done].
    apply flush_persistTimer.
  - unfold FlatCache.persistTimer_fires.
    destruct (FlatCache._persistTimer c) eqn:Ht; [|done].
    rewrite save_persistTimer. done.
Qed.

Lemma destroy_persistTimer (d : bool) c fs :
  FlatCache._persistTimer (FlatCache.destroy d c fs).1 = None.
Proof.
  unfold FlatCache.destroy, FlatCache.stopAutoPersist.
  rewrite (proj1 (flush_persistTimer _)). simpl.
  destruct (FlatCache._persistTimer c) eqn:Ht; simpl;
    destruct (Fs.rmSync_rf _ _); simpl; try done.
  all: by rewrite (proj1 (flush_persistTimer _)).
Qed.

Lemma exec_persist_ok (call : FlatCache.Call Value) now c fs :
  persist_ok c → persist_ok (FlatCache.exec call now (c, fs)).1.
Proof.
  intros Hok.
  assert (call = FlatCache.CallStartAutoPersist
          ∨ call = FlatCache.CallStopAutoPersist
          ∨ (∃ d, call = FlatCache.CallDestroy d)
          ∨ (call ≠ FlatCache.CallStartAutoPersist
             ∧ call ≠ FlatCache.CallStopAutoPersist
             ∧ ∀ d, call ≠ FlatCache.CallDestroy d))
    as [->|[->|[[d ->]|(Hstart & Hstop & Hd)]]]
    by (destruct call; eauto 10).
  - simpl. unfold FlatCache.startAutoPersist.
    destruct (0 <? FlatCache._persistInterval c) eqn:Hpos; [|done].
    intros period [= <-]. lia.
  - simpl. unfold FlatCache.stopAutoPersist.
    destruct (FlatCache._persistTimer c); done.
  - unfold persist_ok. simpl. by rewrite destroy_persistTimer.
  - unfold persist_ok. by rewrite exec_persistTimer.
Qed.

(** X13: the auto-persist timer.  The constructor arms it exactly when the
    option gives a positive interval; in a running cache an armed timer has
    a positive period; only [startAutoPersist], [stopAutoPersist] and
    [destroy] ever arm or disarm it; after the latter two it is disarmed. *)
Theorem auto_persist_timer options calls fs :
  let w := FlatCache.run calls (FlatCache.new options, fs) in
  FlatCache._persistTimer (FlatCache.new options)
  = (let ms := default 0 (options ≫= FlatCacheOptions.persistInterval) in
     if 0 <? ms then Some ms else None)
  ∧ (∀ period, FlatCache._persistTimer w.1 = Some period → 0 < period)
  ∧ (∀ call now,
       call ≠ FlatCache.CallStartAutoPersist →
       call ≠ FlatCache.CallStopAutoPersist →
       (∀ d, call ≠ FlatCache.CallDestroy d) →
       FlatCache._persistTimer (FlatCache.exec call now w).1
       = FlatCache._persistTimer w.1)
  ∧ (∀ now,
       FlatCache._persistTimer
         (FlatCache.exec FlatCache.CallStopAutoPersist now w).1 = None)
  ∧ (∀ d now,
       FlatCache._persistTimer
         (FlatCache.exec (FlatCache.CallDestroy d) now w).1 = None).
Proof.
  intros w. split_and!.
  - unfold FlatCache.new, FlatCache.startAutoPersist. simpl.
    destruct (default 0 (options ≫= FlatCacheOptions.persistInterval)) eqn:Hms;
      simpl; done.
  - change (persist_ok w.1). subst w.
    apply (run_invariant (λ w, persist_ok w.1)).
    + unfold persist_ok, FlatCache.new, FlatCache.startAutoPersist. simpl.
      destruct (default 0 (options ≫= FlatCacheOptions.persistInterval)) eqn:Hms;
        simpl; try done.
      intros period [= <-]. lia.
    + intros call now [c fs']. apply exec_persist_ok.
  - intros call now. destruct w as [c fs']. apply exec_persistTimer.
  - intros now. destruct w as [c fs']. simpl. unfold FlatCache.stopAutoPersist.
    destruct (FlatCache._persistTimer c) eqn:Ht; done.
  - intros d now. destruct w as [c fs']. apply destroy_persistTimer.
Qed.

(** *** Reading *)

Lemma store_get_again k k' now t (m : CacheableMemory.t Value) :
  now ≤ t →
  (CacheableMemory.get k' t (CacheableMemory.get k now m).2).1
  = (CacheableMemory.get k' t m).1.
Proof.
  intros Hle. rewrite !store_get_fst.
  destruct (decide (k' = k)) as [->|Hne]; [|by rewrite store_get_other].
  unfold CacheableMemory.get.
  destruct (CacheableMemory.store m !! k) as [[v e]|] eqn:Hk; simpl;
    [|by rewrite Hk].
  destruct (CacheableMemory.hasExpired now e) eqn:He; simpl;
    [|by rewrite Hk].
  rewrite lookup_delete_eq. simpl.
  destruct (CacheableMemory.hasExpired t e) eqn:He'; [done|].
  by rewrite (not_expired_earlier e now t) in He.
Qed.

(** X14: [get] is a read.  It leaves the dirty flag, the snapshot and its
    flag, the pending writes, both timers and the notifications as they
    are; a miss takes the key out of the tracker, a hit touches it and
    leaves the memory store alone; and no later [get], of any key, answers
    differently for it. *)
Theorem get_effects k now c :
  let r := FlatCache.get k now c in
  FlatCache._changesSinceLastSave r.2 = FlatCache._changesSinceLastSave c
  ∧ FlatCache._serializationCacheValid r.2 = FlatCache._serializationCacheValid c
  ∧ FlatCache._serializationCache r.2 = FlatCache._serializationCache c
  ∧ FlatCache._pendingWrites r.2 = FlatCache._pendingWrites c
  ∧ FlatCache._batchWriteTimer r.2 = FlatCache._batchWriteTimer c
  ∧ FlatCache._persistTimer r.2 = FlatCache._persistTimer c
  ∧ FlatCache.emitted r.2 = FlatCache.emitted c
  ∧ (r.1 = None → FastLRU.has k (FlatCache._lruCache r.2) = false)
  ∧ (is_Some r.1 →
     FlatCache._lruCache r.2 = FastLRU.touch k (FlatCache._lruCache c)
     ∧ FlatCache._cache r.2 = FlatCache._cache c)
  ∧ (∀ k' t, now ≤ t → (FlatCache.get k' t r.2).1 = (FlatCache.get k' t c).1).
Proof.
  intros r. split_and!.
  1-7: subst r; unfold FlatCache.get;
    by destruct (CacheableMemory.get k now (FlatCache._cache c)) as [[v|] m].
  - subst r. unfold FlatCache.get.
    destruct (CacheableMemory.get k now (FlatCache._cache c)) as [[v|] m];
      simpl; [done|].
    intros _. apply has_delete.
  - subst r. unfold FlatCache.get, CacheableMemory.get.
    destruct (CacheableMemory.store (FlatCache._cache c) !! k) as [[v e]|];
      simpl; [|by intros [? ?]].
    destruct (CacheableMemory.hasExpired now e); simpl; [by intros [? ?]|].
    intros _. split; [done|]. by destruct c.
  - intros k' t Hle. subst r.
    rewrite !get_fst, get_cache. by apply store_get_again.
Qed.

(** *** Loading through a stream *)






(** *** Clearing caches on disk *)



(** *** The snapshot and its flag *)

Lemma snapshot_spec entries c :
  let r := FlatCache.snapshot entries c in
  FlatCache._serializationCache r.2 = Some r.1
  ∧ FlatCache._serializationCacheValid r.2 = true.
Proof.
  unfold FlatCache.snapshot.
  destruct (FlatCache._serializationCacheValid c) eqn:Hv,
    (FlatCache._serializationCache c) as [text|] eqn:Ht; simpl; try done.
  by destruct (FlatCache.truthy text).
Qed.

Lemma save_snapshot force now c fs :
  let c' := (FlatCache.save force now c fs).1 in
  (FlatCache._serializationCacheValid c' = FlatCache._serializationCacheValid c
   ∧ FlatCache._serializationCache c' = FlatCache._serializationCache c
   ∧ FlatCache._batchWriteTimer c' = FlatCache._batchWriteTimer c)
  ∨ (FlatCache._serializationCacheValid c' = true
     ∧ is_Some (FlatCache._serializationCache c')
     ∧ FlatCache._batchWriteTimer c' = None).
Proof.
  unfold FlatCache.save, FlatCache.save_try.
  destruct (_ || _); [|by left]. right.
  pose proof (flushPendingWrites_frame c) as Hf. simpl in Hf.
  pose proof (snapshot_frame
    (CacheableMemory.items now (FlatCache._cache (FlatCache.flushPendingWrites c)))
    (FlatCache.flushPendingWrites c)) as Hs. simpl in Hs.
  pose proof (snapshot_spec
    (CacheableMemory.items now (FlatCache._cache (FlatCache.flushPendingWrites c)))
    (FlatCache.flushPendingWrites c)) as Hv. simpl in Hv.
  destruct (FlatCache.snapshot _ _) as [data c2]. simpl in Hs, Hv.
  destruct Hf as (_&_&_&_&_&_&_&_&_& Ht & _).
  destruct Hs as (_&_&_&_&_&_& Ht' & _).
  destruct Hv as [Hv1 Hv2].
  repeat case_match; simplify_eq/=; split_and!; try done; try congruence.
  all: by rewrite Hv1.
Qed.

Lemma exec_snapshot_ok call now c fs :
  snapshot_ok c → snapshot_ok (FlatCache.exec call now (c, fs)).1.
Proof.
  unfold snapshot_ok. intros Hok. destruct call; simpl.
  - unfold FlatCache.set.
    rewrite (proj1 (proj2 (proj2 (proj2 (scheduleBatchWrite_frame _ _))))).
    done.
  - unfold FlatCache.get.
    by destruct (CacheableMemory.get k now (FlatCache._cache c)) as [[v|] m].
  - done.
  - unfold FlatCache.clear.
    match goal with |- context [FlatCache.save ?f ?n ?x ?y] =>
      pose proof (save_snapshot f n x y) as Hs; destruct (FlatCache.save f n x y) end.
    simpl in *. destruct Hs as [(-> & _)|(_ & ? & ?)]; done.
  - pose proof (save_snapshot force now c fs) as Hs. simpl in Hs.
    destruct Hs as [(-> & -> & ->)|(_ & ? & ?)]; done.
  - unfold FlatCache.load.
    match goal with |- context [FlatCache.loadFile ?p ?n ?x ?y] =>
      pose proof (loadFile_frame p n x y) as Hs; destruct (FlatCache.loadFile p n x y) as [? []] end;
    simpl in *; by destruct Hs as (_ & -> & _ & -> & -> & _).
  - pose proof (loadFile_frame pathToFile now c fs) as Hs. simpl in Hs.
    by destruct Hs as (_ & -> & _ & -> & -> & _).
  - unfold FlatCache.loadFileStream. repeat case_match; done.
  - unfold FlatCache.removeCacheFile. repeat case_match; simplify_eq/=; done.
  - unfold FlatCache.destroy.
    match goal with |- context [FlatCache.flushPendingWrites ?x] =>
      pose proof (flushPendingWrites_frame x) as Hs end.
    simpl in Hs. destruct Hs as (_&_&_& Hv &_).
    unfold FlatCache.stopAutoPersist. repeat case_match; simpl; by rewrite Hv.
  - unfold FlatCache.startAutoPersist. by case_match.
  - unfold FlatCache.stopAutoPersist. by case_match.
  - unfold FlatCache.batchWriteTimer_fires.
    destruct (FlatCache._batchWriteTimer c) eqn:Ht;
      [|intros Hv; destruct (Hok Hv); split; [done|congruence]].
    pose proof (flushPendingWrites_frame c) as Hs. simpl in Hs.
    destruct Hs as (_&_&_& -> & -> &_&_&_&_& -> &_). intros Hv.
    split; [|done]. by apply Hok.
  - unfold FlatCache.persistTimer_fires.
    destruct (FlatCache._persistTimer c); [|done].
    pose proof (save_snapshot false now c fs) as Hs. simpl in Hs.
    destruct Hs as [(-> & -> & ->)|(_ & ? & ?)]; done.
  - done.
  - done.
  - done.
Qed.

(** X17: in a running cache a snapshot marked valid holds a text, and at
    that moment no write is pending and no batch timer is armed: every
    mutation through [set], [delete] or [clear] takes the mark away. *)
Theorem valid_snapshot_is_settled options calls fs :
  let c := (FlatCache.run calls (FlatCache.new options, fs)).1 in
  FlatCache._serializationCacheValid c = true →
  is_Some (FlatCache._serializationCache c)
  ∧ FlatCache._pendingWrites c = ∅
  ∧ FlatCache._batchWriteTimer c = None.
Proof.
  intros c Hv.
  assert (snapshot_ok c) as Hok.
  { subst c. apply (run_invariant (λ w, snapshot_ok w.1)).
    - unfold snapshot_ok, FlatCache.new, FlatCache.startAutoPersist.
      destruct (bool_decide _); [done|]. by destruct (_ <? _).
    - intros call now [c fs']. apply exec_snapshot_ok. }
  destruct (Hok Hv) as [Hs Ht]. split_and!; try done.
  by apply (run_pending_ok calls options fs).
Qed.

(** *** Writing *)

(** X18: what [set(k, v)] does beside storing the pair.  It marks the cache
    dirty and the snapshot stale, emits nothing and leaves the snapshot
    text and the auto-persist timer alone; the pair is pending under an
    armed batch timer, unless the coalescer was flushed on the spot; and
    neither [set(k, v)] nor [delete(k)] changes what [get] answers for
    another key. *)
Theorem writes_are_local k v ttl now c :
  let c' := FlatCache.set k v ttl now c in
  FlatCache._changesSinceLastSave c' = true
  ∧ FlatCache._serializationCacheValid c' = false
  ∧ FlatCache._serializationCache c' = FlatCache._serializationCache c
  ∧ FlatCache.emitted c' = FlatCache.emitted c
  ∧ FlatCache._persistTimer c' = FlatCache._persistTimer c
  ∧ ((FlatCache._batchWriteTimer c' = None ∧ FlatCache._pendingWrites c' = ∅)
     ∨ (∃ due, FlatCache._batchWriteTimer c' = Some due
               ∧ FlatCache._pendingWrites c' !! k = Some v))
  ∧ (∀ k' t, k' ≠ k →
       (FlatCache.get k' t c').1 = (FlatCache.get k' t c).1
       ∧ (FlatCache.get k' t (FlatCache.delete k c)).1
         = (FlatCache.get k' t c).1).
Proof.
  intros c'. split_and!.
  - subst c'. unfold FlatCache.set.
    by rewrite (proj1 (proj2 (proj2 (scheduleBatchWrite_frame _ _)))).
  - subst c'. unfold FlatCache.set.
    by rewrite (proj1 (proj2 (proj2 (proj2 (scheduleBatchWrite_frame _ _))))).
  - subst c'. unfold FlatCache.set, FlatCache.scheduleBatchWrite. simpl.
    destruct (FlatCache._batchWriteTimer c); [done|].
    case_bool_decide; [|done].
    by rewrite (proj1 (proj2 (proj2 (proj2 (proj2
         (flushPendingWrites_frame _)))))).
  - subst c'. unfold FlatCache.set.
    by rewrite (proj2 (proj2 (proj2 (proj2 (scheduleBatchWrite_frame _ _))))).
  - apply set_keeps_persistTimer.
  - subst c'. destruct (FlatCache._batchWriteTimer c) as [due|] eqn:Ht.
    + destruct (set_while_scheduled k v ttl now c due Ht) as [-> ->].
      right. exists due. by rewrite lookup_insert_eq.
    + unfold FlatCache.set, FlatCache.scheduleBatchWrite. simpl. rewrite Ht.
      case_bool_decide.
      * left. split; apply flushPendingWrites_frame.
      * right. eexists. simpl. by rewrite lookup_insert_eq.
  - intros k' t Hne. subst c'.
    rewrite !get_fst, !store_get_fst, set_cache_eq. simpl.
    by rewrite lookup_insert_ne, lookup_delete_ne.
Qed.

(** *** Making a cache *)

(** X19: [create] reads the cache file its options name, as
    [createFromFile] does for that path, and has emitted exactly one
    notification since: the load notification, or the error that
    [createFromFile] throws.  With no such file on disk either one gives a
    clean cache without keys. *)
Theorem create_outcomes options now fs :
  let p := FlatCache.cacheFilePath (FlatCache.new options) in
  let c := FlatCache.create options now fs in
  let r := FlatCache.createFromFile p options now fs in
  FlatCache.emitted c = match r.2 with Some e => [ERROR e] | None => [LOAD] end
  ∧ FlatCache._cache c = FlatCache._cache r.1
  ∧ FlatCache._changesSinceLastSave c = FlatCache._changesSinceLastSave r.1
  ∧ (∀ path, Fs.existsSync path fs = false →
       let r' := FlatCache.createFromFile path options now fs in
       r'.2 = None
       ∧ FlatCache.keys now r'.1 = []
       ∧ FlatCache._changesSinceLastSave r'.1 = false
       ∧ FlatCache.emitted r'.1 = []).
Proof.
  intros p c r. subst c r p.
  unfold FlatCache.create, FlatCache.createFromFile, FlatCache.load,
    FlatCache.cacheFilePath. simpl.
  pose proof (loadFile_frame
    (Fs.resolve (FlatCache._cacheDir (FlatCache.new options) +:+ "/"
                 +:+ FlatCache._cacheId (FlatCache.new options)))
    now (FlatCache.new options) fs) as Hf. simpl in Hf.
  destruct Hf as (_ & _ & _ & _ & _ & He).
  rewrite (proj2 (proj2 (new_fields options))) in He.
  split_and!.
  - destruct (FlatCache.loadFile _ _ _ _) as [c' [e|]]; simpl in *;
      by rewrite He.
  - by destruct (FlatCache.loadFile _ _ _ _) as [c' [e|]].
  - by destruct (FlatCache.loadFile _ _ _ _) as [c' [e|]].
  - intros path Hpath. unfold FlatCache.loadFile. rewrite Hpath. simpl.
    split_and!; try done.
    + unfold FlatCache.keys, CacheableMemory.keys, CacheableMemory.items.
      rewrite (proj1 (proj2 (new_fields options))). simpl.
      by rewrite map_to_list_empty.
    + unfold FlatCache.new, FlatCache.startAutoPersist.
      destruct (bool_decide _); [done|]. by destruct (_ <? _).
    + apply new_fields.
Qed.

End Further.

(** ** The properties on concrete runs *)
Section Concrete.
Import Scenario Invariants.



(** C2 on a run: [loadFile] adds an entry to the memory store and leaves
    the snapshot cache marked valid; the next [save] then writes the text of
    the first [save], which lacks the entry, and clears the dirty flag. *)
Lemma stale_snapshot_after_loadFile :
  let w3 := FlatCache.run (take 3 set_save_loadFile_save) (fresh, extra_disk) in
  let w4 := FlatCache.run set_save_loadFile_save (fresh, extra_disk) in
  FlatCache.keys 3 w3.1 = ["a"; "b"]
  ∧ FlatCache._serializationCacheValid w3.1 = true
  ∧ FlatCache._serializationCache w3.1 = Some "a=1@;"
  ∧ FlatCache._stringify w3.1 (FlatCache.items 3 w3.1) = "a=1@;b=2@;"
  ∧ Fs.files w4.2 !! ".cache/cache1" = Some "a=1@;"
  ∧ FlatCache.emitted w4.1 = [SAVE; SAVE]
  ∧ FlatCache._changesSinceLastSave w4.1 = false.
Proof. vm_compute. by split_and!. Qed.

(** C3 on a run: ten calls of [set] with the default threshold of ten.  The
    first call arms the timer, the later ones return at once, and after the
    tenth the pending-write set holds ten keys and has not been flushed. *)
Lemma threshold_reached_not_flushed :
  let c := (FlatCache.run ten_sets (fresh, disk)).1 in
  FlatCache._batchWriteSize c = 10%nat
  ∧ size (FlatCache._pendingWrites c) = 10%nat
  ∧ FlatCache._batchWriteTimer c = Some 100.
Proof. vm_compute. by split_and!. Qed.

(** C4 as stated fails: on a path that does not exist [loadFile] neither
    throws nor notifies, and [load], its caller, reports a load. *)
Lemma loadFile_missing_counterexample :
  Fs.existsSync "nowhere" disk = false
  ∧ (FlatCache.loadFile "nowhere" 0 fresh disk).2 = None
  ∧ FlatCache.emitted (FlatCache.loadFile "nowhere" 0 fresh disk).1 = []
  ∧ FlatCache.emitted (FlatCache.load (Some "nowhere") None 0 fresh disk) = [LOAD].
Proof. vm_compute. by split_and!. Qed.

(** C4 on a run: [loadFile] and [loadFileStream] on a missing path. *)
Lemma loadFile_missing_witness :
  Fs.existsSync "nowhere" disk = false
  ∧ FlatCache.loadFile "nowhere" 0 fresh disk = (fresh, None)
  ∧ (FlatCache.loadFileStream "nowhere" true 4 0 fresh disk).1.2
    = [FlatCache.onError (ErrMissing "nowhere")].
Proof.
  assert (Hp : Fs.existsSync "nowhere" disk = false) by reflexivity.
  destruct (loadFile_missing_is_silent "nowhere" 0 fresh disk Hp) as [Hload Hstream].
  split_and!; [exact Hp|exact Hload|].
  by rewrite (proj1 (Hstream true 4%nat)).
Defined.




(** C7 on a run: three keys are set in a cache whose tracker holds two; the
    first key has left the tracker and [get] still answers its value. *)
Lemma tracker_witness :
  let c := (FlatCache.run three_sets (FlatCache.new (Some small), disk)).1 in
  FastLRU.order (FlatCache._lruCache c) = ["c"; "b"]
  ∧ (size (FastLRU.cache (FlatCache._lruCache c)) ≤ 2)%nat
  ∧ FastLRU.has "a" (FlatCache._lruCache c) = false
  ∧ CacheableMemory.store (FlatCache._cache c) !! "a" = Some (1, None)
  ∧ (FlatCache.get "a" 5 c).1 = Some 1.
Proof.
  destruct (tracker_bounded_and_advisory (Some small) three_sets disk)
    as (_ & Hsize & _ & _ & _ & _ & _ & _ & Hget).
  assert (Ha : CacheableMemory.store
                 (FlatCache._cache
                    (FlatCache.run three_sets (FlatCache.new (Some small), disk)).1)
               !! "a" = Some (1, None)) by (vm_compute; reflexivity).
  cbv zeta. split_and!.
  - vm_compute; reflexivity.
  - exact Hsize.
  - vm_compute; reflexivity.
  - exact Ha.
  - by apply (Hget "a" 1 None 5 Ha).
Defined.



(** X5 on a run: [load] on an empty disk. *)
Lemma load_missing_witness :
  Fs.existsSync ".cache/cache1" disk = false
  ∧ FlatCache.load None None 0 fresh disk = FlatCache.emit LOAD fresh.
Proof.
  assert (Hp : Fs.existsSync ".cache/cache1" disk = false) by reflexivity.
  split; [exact Hp|]. exact (load_missing None None 0 fresh disk Hp).
Defined.



(** X17 on a run: after [set("a", 1)] and [save()] the snapshot is valid. *)
Lemma valid_snapshot_witness :
  let c := (FlatCache.run (take 1 two_sets ++ [(1, FlatCache.CallSave false)])
              (FlatCache.new None, disk)).1 in
  FlatCache._serializationCacheValid c = true
  ∧ is_Some (FlatCache._serializationCache c)
  ∧ FlatCache._pendingWrites c = ∅
  ∧ FlatCache._batchWriteTimer c = None.
Proof.
  assert (Hv : FlatCache._serializationCacheValid
                 (FlatCache.run (take 1 two_sets ++ [(1, FlatCache.CallSave false)])
                    (FlatCache.new None, disk)).1 = true)
    by (vm_compute; reflexivity).
  cbv zeta. split; [exact Hv|].
  exact (valid_snapshot_is_settled None
           (take 1 two_sets ++ [(1, FlatCache.CallSave false)]) disk Hv).
Defined.

End Concrete.
